(** * J2ME Browser: manifest parser and engine lifecycle hook

    A shallow embedding of [src/utils/jarParser.ts] and of the [useCheerpJ]
    hook, with the properties of the natural-language specification proved
    (or refuted) over it.

    Conventions.
    - A JavaScript string is a sequence of code units.  The embedding uses
      [string], whose characters are the code units [0..255]; the white
      space of [String.prototype.trim] inside that range is TAB, LF, VT,
      FF, CR, SPACE and NBSP.
    - [undefined]/[null] is [None]; the truthiness test of a string-valued
      expression is [truthy].
    - A plain object used as a dictionary is a [gmap string string] holding
      its own properties.
    - A Number that holds an integer is [JS.Num z]; the conversion of an
      integer to the nearest double is written out ([JS.of_integer]).
    - An [async] function is a function on the state of the hook for a
      call during which nothing else happens; where a statement is about
      what happens while a call waits, the function is cut at that [await]
      ([Hook.loadJAR_try_begin], [Hook.loadJAR_try_settle]). *)

From Stdlib Require Import ZArith Ascii String List Lia.
From stdpp Require Import base option list gmap strings pretty.

Local Open Scope char_scope.
Local Open Scope stdpp_scope.
#[local] Set Warnings "-clear-no-such-hyp".

(** ** JavaScript string primitives used by the parser *)

Module JS.

Definition LF : ascii := "010".
Definition CR : ascii := "013".

(** WhiteSpace and LineTerminator code units below 256. *)
Definition is_white (c : ascii) : bool :=
  Ascii.eqb c "009" || Ascii.eqb c "010" || Ascii.eqb c "011" ||
  Ascii.eqb c "012" || Ascii.eqb c "013" || Ascii.eqb c " " ||
  Ascii.eqb c "160".

(** [s.startsWith(c)] for a one-character search string. *)
Definition startsWith (c : ascii) (s : string) : bool :=
  match s with
  | String a _ => Ascii.eqb a c
  | EmptyString => false
  end.

(** [s.indexOf(c)]; [None] stands for [-1]. *)
Fixpoint indexOf (c : ascii) (s : string) : option nat :=
  match s with
  | EmptyString => None
  | String a s' => if Ascii.eqb a c then Some 0 else S <$> indexOf c s'
  end.

Fixpoint drop (n : nat) (s : string) : string :=
  match n, s with
  | 0, _ => s
  | S n', String _ s' => drop n' s'
  | S _, EmptyString => EmptyString
  end.

Fixpoint take (n : nat) (s : string) : string :=
  match n, s with
  | 0, _ => EmptyString
  | S n', String a s' => String a (take n' s')
  | S _, EmptyString => EmptyString
  end.

(** [s.substring(start, finish)]: both indices are clamped to the length
    and swapped when out of order; [finish = None] is the one-argument
    form. *)
Definition substring (s : string) (start : nat) (finish : option nat) : string :=
  let len := String.length s in
  let a := start `min` len in
  let b := from_option (λ e, e `min` len) len finish in
  take (a `max` b - a `min` b) (drop (a `min` b) s).

Fixpoint trimStart (s : string) : string :=
  match s with
  | String a s' => if is_white a then trimStart s' else s
  | EmptyString => EmptyString
  end.

Fixpoint trimEnd (s : string) : string :=
  match s with
  | EmptyString => EmptyString
  | String a s' =>
      match trimEnd s' with
      | EmptyString => if is_white a then EmptyString else String a EmptyString
      | t => String a t
      end
  end.

(** [s.trim()]. *)
Definition trim (s : string) : string := trimEnd (trimStart s).

(** Prepend a character to the first piece of a split. *)
Definition cons_first (a : ascii) (ps : list string) : list string :=
  match ps with
  | p :: ps' => String a p :: ps'
  | [] => [String a EmptyString]
  end.

(** [s.split(sep)] for a one-character separator: always at least one
    piece, [""] splits to [[""]]. *)
Fixpoint split (sep : ascii) (s : string) : list string :=
  match s with
  | EmptyString => [EmptyString]
  | String a s' =>
      if Ascii.eqb a sep then EmptyString :: split sep s'
      else cons_first a (split sep s')
  end.

(** [s.split(/\r?\n/)]: the pattern is tried at every position from the
    left, so CR LF is one separator, a lone LF is one, and a CR that is
    not followed by LF stays in its piece. *)
Fixpoint split_lines (s : string) : list string :=
  match s with
  | EmptyString => [EmptyString]
  | String a s' =>
      if Ascii.eqb a LF then EmptyString :: split_lines s'
      else if Ascii.eqb a CR then
        match s' with
        | String b s'' =>
            if Ascii.eqb b LF then EmptyString :: split_lines s''
            else cons_first a (split_lines s')
        | EmptyString => cons_first a (split_lines s')
        end
      else cons_first a (split_lines s')
  end.

(** [s.replace(pat, rep)] with a string pattern: the first occurrence
    only. *)
Fixpoint replace (pat rep s : string) {struct s} : string :=
  if String.prefix pat s then rep +:+ drop (String.length pat) s
  else match s with
       | EmptyString => EmptyString
       | String a s' => String a (replace pat rep s')
       end.

(** Truthiness of a value that is a string or [undefined]: only the
    non-empty strings are truthy. *)
Definition truthy (o : option string) : bool :=
  match o with
  | Some s => negb (String.eqb s "")
  | None => false
  end.

(** [o || d] with a string default. *)
Definition or_default (o : option string) (d : string) : string :=
  match o with
  | Some s => if truthy o then s else d
  | None => d
  end.

(** [o || null]. *)
Definition or_null (o : option string) : option string :=
  if truthy o then o else None.

(** Assignment [obj[k] = v] on an object created by the literal [{}].
    Its prototype is [Object.prototype], whose [__proto__] setter ignores
    a string, so that one key never becomes an own property. *)
Definition obj_set (k v : string) (obj : gmap string string) : gmap string string :=
  if decide (k = "__proto__") then obj else <[k := v]> obj.

(** The Number values the parser can produce: [NaN], an infinity, or the
    double whose value is the integer [z] (the sign of zero is not
    tracked). *)
Inductive number : Type :=
| NaN
| Num (z : Z)
| Infinity (negative : bool).

(** The double nearest to the integer [a >= 0], ties going to the even
    significand: integers of at most 53 bits are doubles; a longer one
    keeps its 53 leading bits, rounded on the bits that are dropped. *)
Definition round_to_double (a : Z) : Z :=
  let e := (Z.log2 a - 52)%Z in
  if (e <=? 0)%Z then a
  else
    let q := Z.shiftr a e in
    let r := Z.land a (Z.ones e) in
    let half := Z.shiftl 1 (e - 1) in
    let q' :=
      if (r <? half)%Z || ((r =? half)%Z && Z.even q) then q else (q + 1)%Z in
    Z.shiftl q' e.

(** The Number value for the integer [z]: the nearest double, an infinity
    when that rounds up to [2^1024]. *)
Definition of_integer (z : Z) : number :=
  let v := round_to_double (Z.abs z) in
  if (2 ^ 1024 <=? v)%Z then Infinity (z <? 0)%Z else Num (Z.sgn z * v).

(** The conversion of an integer to the IDL type [unsigned long], which the
    members [keyCode] and [which] of a [KeyboardEventInit] have. *)
Definition ToUint32 (z : Z) : Z := (z mod 2 ^ 32)%Z.

Definition digit (c : ascii) : option Z :=
  let n := Z.of_N (N_of_ascii c) in
  if (48 <=? n)%Z && (n <=? 57)%Z then Some (n - 48)%Z else None.

(** The value of the longest prefix of decimal digits, [None] when the
    prefix is empty; [acc] carries the digits already read. *)
Fixpoint digits (acc : option Z) (s : string) : option Z :=
  match s with
  | String a s' =>
      match digit a with
      | Some d => digits (Some (10 * default 0%Z acc + d)%Z) s'
      | None => acc
      end
  | EmptyString => acc
  end.

(** [parseInt(s, 10)]: leading white space is skipped, one sign is
    accepted, then the longest run of decimal digits is read, and the
    result is the Number value for the integer they write (the engines
    round the exact integer; the language allows them to read the digits
    after the twentieth as zeros). *)
Definition parseInt (s : string) : number :=
  let body := trimStart s in
  let '(sign, rest) :=
    match body with
    | String "-" r => ((-1)%Z, r)
    | String "+" r => (1%Z, r)
    | _ => (1%Z, body)
    end in
  match digits None rest with
  | Some v => of_integer (sign * v)
  | None => NaN
  end.

End JS.

(** ** The manifest parser ([src/utils/jarParser.ts]) *)

Module MIDlet.
(** [interface MIDletInfo]. *)
Record Info : Type := {
  name : string;
  icon : option string;
  className : string;
}.
End MIDlet.
Abbreviation MIDletInfo := MIDlet.Info.

(** [interface JARManifest]. *)
Record JARManifest : Type := {
  midletName : string;
  midletVersion : string;
  midletVendor : string;
  midlets : list MIDletInfo;
  screenWidth : JS.number;
  screenHeight : JS.number;
  className : string;
  rawManifest : gmap string string;
}.

(** The three variables of the loop of [parseManifest]. *)
Record ParseState : Type := {
  manifest : gmap string string;
  currentKey : string;
  currentValue : string;
}.

Definition parse_init : ParseState :=
  {| manifest := ∅; currentKey := ""; currentValue := "" |}.

(** [if (currentKey) manifest[currentKey] = currentValue.trim()]. *)
Definition save_entry (st : ParseState) : gmap string string :=
  if JS.truthy (Some (currentKey st))
  then JS.obj_set (currentKey st) (JS.trim (currentValue st)) (manifest st)
  else manifest st.

(** One turn of [for (const line of lines)]; [line.includes(":")] holds
    exactly when [line.indexOf(":")] finds an index. *)
Definition parse_line (st : ParseState) (line : string) : ParseState :=
  if JS.startsWith " " line then
    {| manifest := manifest st;
       currentKey := currentKey st;
       currentValue := currentValue st +:+ JS.substring line 1 None |}
  else
    match JS.indexOf ":" line with
    | Some colonIndex =>
        {| manifest := save_entry st;
           currentKey := JS.trim (JS.substring line 0 (Some colonIndex));
           currentValue := JS.substring line (colonIndex + 1) None |}
    | None => st
    end.

Definition parse_lines (lines : list string) : gmap string string :=
  save_entry (foldl parse_line parse_init lines).

Definition parseManifest (content : string) : gmap string string :=
  parse_lines (JS.split_lines content).

(** The template literal [`MIDlet-${i}`]; [pretty] writes [i] in decimal,
    as the template does for the integers the loop counts through. *)
Definition midlet_key (i : nat) : string := "MIDlet-" +:+ pretty i.

(** The object pushed for index [i] and manifest value [entry]. *)
Definition midlet_of (i : nat) (entry : string) : MIDletInfo :=
  let parts := JS.trim <$> JS.split "," entry in
  {| MIDlet.name := JS.or_default (parts !! 0) ("MIDlet " +:+ pretty i);
     MIDlet.icon := JS.or_null (parts !! 1);
     MIDlet.className := JS.or_default (parts !! 2) "" |}.

(** The [while] loop of [parseMIDletEntries], bounded by [fuel] turns;
    [None] when the bound is reached before the loop exits. *)
Fixpoint midlet_loop (fuel : nat) (manifest : gmap string string)
    (i : nat) (midlets : list MIDletInfo) : option (list MIDletInfo) :=
  match fuel with
  | 0 => None
  | S fuel' =>
      if JS.truthy (manifest !! midlet_key i) then
        let entry := default "" (manifest !! midlet_key i) in
        midlet_loop fuel' manifest (S i) (midlets ++ [midlet_of i entry])
      else Some midlets
  end.

(** The loop tests one distinct key per turn, so it leaves after at most
    [size manifest + 1] tests ([midlet_loop_enough] below). *)
Definition parseMIDletEntries (manifest : gmap string string) : list MIDletInfo :=
  default [] (midlet_loop (S (size manifest)) manifest 1 []).

Record ScreenSize : Type := { width : JS.number; height : JS.number }.

Definition parseScreenSize (manifest : gmap string string) : ScreenSize :=
  let defaultWidth := JS.Num 240 in
  let defaultHeight := JS.Num 320 in
  let canvas := JS.split "x" <$> manifest !! "Nokia-MIDlet-Canvas-Size" in
  let widthStr :=
    if JS.truthy (manifest !! "MIDlet-Screen-Width")
    then manifest !! "MIDlet-Screen-Width"
    else canvas ≫= (λ parts, parts !! 0) in
  let heightStr :=
    if JS.truthy (manifest !! "MIDlet-Screen-Height")
    then manifest !! "MIDlet-Screen-Height"
    else canvas ≫= (λ parts, parts !! 1) in
  {| width := if JS.truthy widthStr
              then JS.parseInt (default "" widthStr) else defaultWidth;
     height := if JS.truthy heightStr
               then JS.parseInt (default "" heightStr) else defaultHeight |}.

(** [midlets[0]?.className || "Start"]. *)
Definition entry_class (midlets : list MIDletInfo) : string :=
  JS.or_default (MIDlet.className <$> midlets !! 0) "Start".

Definition parseJAD (content : string) : JARManifest :=
  let rawManifest := parseManifest content in
  let midlets := parseMIDletEntries rawManifest in
  let size := parseScreenSize rawManifest in
  {| midletName := JS.or_default (rawManifest !! "MIDlet-Name") "Unknown";
     midletVersion := JS.or_default (rawManifest !! "MIDlet-Version") "1.0";
     midletVendor := JS.or_default (rawManifest !! "MIDlet-Vendor") "Unknown";
     midlets := midlets;
     screenWidth := width size;
     screenHeight := height size;
     className := entry_class midlets;
     rawManifest := rawManifest |}.

(** *** The archive as JSZip presents it *)

(** A value thrown or used to reject a promise: an [Error] with its message,
    or anything else. *)
Inductive Thrown : Type :=
| ErrorObj (message : string)
| OtherValue.

(** An entry of the loaded archive: whether it is a folder, and what
    [async("string")] settles to (its text, or a rejection). *)
Record ZipObject : Type := {
  dir : bool;
  text : Thrown + string;
}.

(** A [File]: its name, and what [zip.loadAsync(file)] settles to (the
    table of entries by path, or a rejection when the bytes are not a ZIP
    archive). *)
Record File : Type := {
  file_name : string;
  loadAsync : Thrown + gmap string ZipObject;
}.

(** [contents.file(path)]: the entry at [path] unless it is a folder. *)
Definition zip_file (contents : gmap string ZipObject) (path : string)
    : option ZipObject :=
  match contents !! path with
  | Some obj => if dir obj then None else Some obj
  | None => None
  end.

(** [parseJAR]: [inl] is the rejection of the returned promise, [inr] its
    fulfilment. *)
Definition parseJAR (file : File) : Thrown + JARManifest :=
  match loadAsync file with
  | inl e => inl e
  | inr contents =>
      match zip_file contents "META-INF/MANIFEST.MF" with
      | None => inl (ErrorObj "Invalid JAR: MANIFEST.MF not found")
      | Some manifestFile =>
          match text manifestFile with
          | inl e => inl e
          | inr manifestContent =>
              let rawManifest := parseManifest manifestContent in
              let midlets := parseMIDletEntries rawManifest in
              let size := parseScreenSize rawManifest in
              inr {| midletName :=
                       JS.or_default (rawManifest !! "MIDlet-Name")
                         (JS.replace ".jar" "" (file_name file));
                     midletVersion :=
                       JS.or_default (rawManifest !! "MIDlet-Version") "1.0";
                     midletVendor :=
                       JS.or_default (rawManifest !! "MIDlet-Vendor") "Unknown";
                     midlets := midlets;
                     screenWidth := width size;
                     screenHeight := height size;
                     className := entry_class midlets;
                     rawManifest := rawManifest |}
          end
      end
  end.

(** ** The engine lifecycle hook ([useCheerpJ])

    The hook's state is what [useState] and [useRef] hold, together with the
    part of the page the hook acts on.  Every call into the page or the
    engine is appended to [trace].  A callback reads [isReady], [status] and
    [displayElement] from the render that created it ([Render]); the refs
    are read from the store at the moment of use.  What the page and the
    engine answer to a call is an argument of the operation. *)

Module Hook.

(** [type EmulatorStatus]. *)
Inductive EmulatorStatus : Type :=
| Idle | Loading | Initializing | Running | Paused | Error.

Global Instance EmulatorStatus_eq_dec : EqDecision EmulatorStatus.
Proof. solve_decision. Defined.

(** DOM elements, by identity. *)
Definition Element : Type := nat.
(** A [Blob], by its bytes. *)
Definition Blob : Type := string.

Definition CHEERPJ_CDN : string :=
  "https://cjrtnc.leaningtech.com/3.0/cj3loader.js".

(** Calls that leave the hook; [DispatchEvent] records the [keyCode] the
    event object has. *)
Inductive Event : Type :=
| AppendScript (src : string)
| CheerpjInit (version : Z) (status clipboardMode : string)
| RevokeObjectURL (url : string)
| CreateObjectURL (blob : Blob) (url : string)
| CreateDisplay (w h : JS.number) (parent : Element)
| RunMain (className classPath : string)
| DispatchEvent (target : Element) (type : string) (keyCode : Z).

Record World : Type := {
  (* useState *)
  status : EmulatorStatus;
  error : option string;
  isReady : bool;
  displayElement : option Element;
  (* useRef *)
  containerRef : option Element;
  jarUrlRef : option string;
  (* the page *)
  cheerpjInit_present : bool; (* typeof window.cheerpjInit === 'function' *)
  urls_minted : nat;          (* object URLs created so far *)
  trace : list Event;
}.

(** What the callbacks of one render have captured. *)
Record Render : Type := {
  r_status : EmulatorStatus;
  r_isReady : bool;
  r_displayElement : option Element;
}.

Definition render (w : World) : Render :=
  {| r_status := status w;
     r_isReady := isReady w;
     r_displayElement := displayElement w |}.

(** The hook at its first render, in a page where the engine's entry
    point is present or not and the container is mounted or not. *)
Definition init_world (present : bool) (container : option Element) : World :=
  {| status := Idle; error := None; isReady := false;
     displayElement := None; containerRef := container; jarUrlRef := None;
     cheerpjInit_present := present; urls_minted := 0; trace := [] |}.

Definition setStatus (s : EmulatorStatus) (w : World) : World :=
  {| status := s; error := error w; isReady := isReady w;
     displayElement := displayElement w; containerRef := containerRef w;
     jarUrlRef := jarUrlRef w; cheerpjInit_present := cheerpjInit_present w;
     urls_minted := urls_minted w; trace := trace w |}.

Definition setError (e : option string) (w : World) : World :=
  {| status := status w; error := e; isReady := isReady w;
     displayElement := displayElement w; containerRef := containerRef w;
     jarUrlRef := jarUrlRef w; cheerpjInit_present := cheerpjInit_present w;
     urls_minted := urls_minted w; trace := trace w |}.

Definition setIsReady (b : bool) (w : World) : World :=
  {| status := status w; error := error w; isReady := b;
     displayElement := displayElement w; containerRef := containerRef w;
     jarUrlRef := jarUrlRef w; cheerpjInit_present := cheerpjInit_present w;
     urls_minted := urls_minted w; trace := trace w |}.

Definition setDisplayElement (d : option Element) (w : World) : World :=
  {| status := status w; error := error w; isReady := isReady w;
     displayElement := d; containerRef := containerRef w;
     jarUrlRef := jarUrlRef w; cheerpjInit_present := cheerpjInit_present w;
     urls_minted := urls_minted w; trace := trace w |}.

Definition set_containerRef (c : option Element) (w : World) : World :=
  {| status := status w; error := error w; isReady := isReady w;
     displayElement := displayElement w; containerRef := c;
     jarUrlRef := jarUrlRef w; cheerpjInit_present := cheerpjInit_present w;
     urls_minted := urls_minted w; trace := trace w |}.

Definition set_jarUrlRef (u : option string) (w : World) : World :=
  {| status := status w; error := error w; isReady := isReady w;
     displayElement := displayElement w; containerRef := containerRef w;
     jarUrlRef := u; cheerpjInit_present := cheerpjInit_present w;
     urls_minted := urls_minted w; trace := trace w |}.

Definition set_present (b : bool) (w : World) : World :=
  {| status := status w; error := error w; isReady := isReady w;
     displayElement := displayElement w; containerRef := containerRef w;
     jarUrlRef := jarUrlRef w; cheerpjInit_present := b;
     urls_minted := urls_minted w; trace := trace w |}.

(** Record a call. *)
Definition emit (e : Event) (w : World) : World :=
  {| status := status w; error := error w; isReady := isReady w;
     displayElement := displayElement w; containerRef := containerRef w;
     jarUrlRef := jarUrlRef w; cheerpjInit_present := cheerpjInit_present w;
     urls_minted := urls_minted w; trace := trace w ++ [e] |}.

(** [URL.createObjectURL(blob)]: a URL never handed out before. *)
Definition createObjectURL (blob : Blob) (w : World) : string * World :=
  let url := "blob:" +:+ pretty (urls_minted w) in
  (url,
   emit (CreateObjectURL blob url)
     {| status := status w; error := error w; isReady := isReady w;
        displayElement := displayElement w; containerRef := containerRef w;
        jarUrlRef := jarUrlRef w;
        cheerpjInit_present := cheerpjInit_present w;
        urls_minted := S (urls_minted w); trace := trace w |}).

(** [if (jarUrlRef.current) URL.revokeObjectURL(jarUrlRef.current)]. *)
Definition revoke_current (w : World) : World :=
  if JS.truthy (jarUrlRef w)
  then emit (RevokeObjectURL (default "" (jarUrlRef w))) w
  else w.

(** How an awaited promise ends: fulfilled, rejected (a synchronous throw
    of the awaited call counts as a rejection), or never settled. *)
Inductive Settled (A : Type) : Type :=
| Fulfilled (a : A)
| Rejected (e : Thrown)
| Pending.
Global Arguments Fulfilled {A} a.
Global Arguments Rejected {A} e.
Global Arguments Pending {A}.

(** What happens to an injected script element: [onload] fires (and the
    script did or did not define [window.cheerpjInit]), [onerror] fires,
    or neither. *)
Inductive ScriptOutcome : Type :=
| ScriptLoaded (defines_init : bool)
| ScriptFailed
| ScriptSilent.

(** [err instanceof Error ? err.message : fallback]. *)
Definition message_of (err : Thrown) (fallback : string) : string :=
  match err with
  | ErrorObj m => m
  | OtherValue => fallback
  end.

(** The [TypeError] of calling a missing global; the text is the
    engine's. *)
Definition not_a_function : Thrown :=
  ErrorObj "window.cheerpjInit is not a function".

Definition loadScript (so : ScriptOutcome) (w : World) : Settled unit * World :=
  if cheerpjInit_present w then (Fulfilled (), w)
  else
    let w1 := emit (AppendScript CHEERPJ_CDN) w in
    match so with
    | ScriptLoaded defines_init => (Fulfilled (), set_present defines_init w1)
    | ScriptFailed => (Rejected (ErrorObj "Failed to load CheerpJ"), w1)
    | ScriptSilent => (Pending, w1)
    end.

(** The [catch] block of [initialize]. *)
Definition initialize_catch (err : Thrown) (w : World) : Settled bool * World :=
  (Fulfilled false,
   setStatus Error
     (setError (Some (message_of err "Failed to initialize CheerpJ")) w)).

(** [initialize], as created by render [c]; [so] and [io] are what the
    script element and [window.cheerpjInit] answer if they are reached. *)
Definition initialize (c : Render) (so : ScriptOutcome) (io : Settled unit)
    (w : World) : Settled bool * World :=
  if r_isReady c then (Fulfilled true, w)
  else
    let w1 := setError None (setStatus Loading w) in
    match loadScript so w1 with
    | (Fulfilled _, w2) =>
        let w3 := setStatus Initializing w2 in
        if cheerpjInit_present w3 then
          let w4 := emit (CheerpjInit 8 "none" "java") w3 in
          match io with
          | Fulfilled _ => (Fulfilled true, setStatus Idle (setIsReady true w4))
          | Rejected err => initialize_catch err w4
          | Pending => (Pending, w4)
          end
        else initialize_catch not_a_function w3
    | (Rejected err, w2) => initialize_catch err w2
    | (Pending, w2) => (Pending, w2)
    end.

(** What the engine answers during a run: the display it creates (or the
    exception of [cheerpjCreateDisplay]) and how [cheerpjRunMain] ends. *)
Record LoadOutcome : Type := {
  display_result : Thrown + Element;
  run_result : Settled unit;
}.

(** The [catch] block of [loadJAR]. *)
Definition loadJAR_catch (err : Thrown) (w : World) : Settled unit * World :=
  (Rejected err,
   setStatus Error (setError (Some (message_of err "Failed to load JAR")) w)).

(** From [setStatus('running')] to the end of the [try] block. *)
Definition run_main (lo : LoadOutcome) (className jarUrl : string)
    (w : World) : Settled unit * World :=
  let w1 := setStatus Running w in
  let w2 := emit (RunMain className ("/app/" +:+ jarUrl +:+ ":lib/")) w1 in
  match run_result lo with
  | Fulfilled _ => (Fulfilled (), w2)
  | Rejected err => loadJAR_catch err w2
  | Pending => (Pending, w2)
  end.

(** The [try] block of [loadJAR]. *)
Definition loadJAR_try (lo : LoadOutcome) (jarBlob : Blob) (className : string)
    (screenWidth screenHeight : JS.number) (w : World) : Settled unit * World :=
  let w1 := setStatus Loading w in
  let w2 := revoke_current w1 in
  let '(jarUrl, w3) := createObjectURL jarBlob w2 in
  let w4 := set_jarUrlRef (Some jarUrl) w3 in
  match containerRef w4 with
  | Some parent =>
      let w5 := emit (CreateDisplay screenWidth screenHeight parent) w4 in
      match display_result lo with
      | inr display =>
          run_main lo className jarUrl (setDisplayElement (Some display) w5)
      | inl err => loadJAR_catch err w5
      end
  | None => run_main lo className jarUrl w4
  end.

(** [loadJAR_try] is a run in which nothing else happens while the call
    waits for [cheerpjRunMain].  The two definitions that follow cut the
    [try] block at that [await], so that other operations can be placed
    between the call and its continuation. *)

(** The [try] block up to the [await]: the call is suspended in the state
    given on the right, or [cheerpjCreateDisplay] threw and the [catch]
    block has run (on the left, what [loadJAR] settles to). *)
Definition loadJAR_try_begin (lo : LoadOutcome) (jarBlob : Blob)
    (className : string) (screenWidth screenHeight : JS.number) (w : World)
    : (Settled unit * World) + World :=
  let w1 := setStatus Loading w in
  let w2 := revoke_current w1 in
  let '(jarUrl, w3) := createObjectURL jarBlob w2 in
  let w4 := set_jarUrlRef (Some jarUrl) w3 in
  let call w' :=
    emit (RunMain className ("/app/" +:+ jarUrl +:+ ":lib/"))
      (setStatus Running w') in
  match containerRef w4 with
  | Some parent =>
      let w5 := emit (CreateDisplay screenWidth screenHeight parent) w4 in
      match display_result lo with
      | inr display => inr (call (setDisplayElement (Some display) w5))
      | inl err => inl (loadJAR_catch err w5)
      end
  | None => inr (call w4)
  end.

(** The continuation of the [await], entered in the state [w] the hook is
    in when the promise of [cheerpjRunMain] settles: nothing is left to do
    after a fulfilment, the [catch] block runs after a rejection. *)
Definition loadJAR_try_settle (r : Settled unit) (w : World)
    : Settled unit * World :=
  match r with
  | Fulfilled _ => (Fulfilled (), w)
  | Rejected err => loadJAR_catch err w
  | Pending => (Pending, w)
  end.

(** [loadJAR], as created by render [c] (its [initialize] is the one of
    the same render). *)
Definition loadJAR (c : Render) (so : ScriptOutcome) (io : Settled unit)
    (lo : LoadOutcome) (jarBlob : Blob) (className : string)
    (screenWidth screenHeight : JS.number) (w : World) : Settled unit * World :=
  if negb (r_isReady c) then
    match initialize c so io w with
    | (Fulfilled true, w1) =>
        loadJAR_try lo jarBlob className screenWidth screenHeight w1
    | (Fulfilled false, w1) => (Rejected (ErrorObj "CheerpJ not initialized"), w1)
    | (Rejected err, w1) => (Rejected err, w1)
    | (Pending, w1) => (Pending, w1)
    end
  else loadJAR_try lo jarBlob className screenWidth screenHeight w.

Definition stop (w : World) : World :=
  let w1 :=
    if JS.truthy (jarUrlRef w)
    then set_jarUrlRef None
           (emit (RevokeObjectURL (default "" (jarUrlRef w))) w)
    else w in
  setDisplayElement None (setStatus Idle w1).

(** [sendKeyEvent], as created by render [c].  The event is built from the
    dictionary [{keyCode, which: keyCode, bubbles: true}], whose two codes
    are converted to [unsigned long]: the event that reaches the display
    carries [ToUint32 keyCode]. *)
Definition sendKeyEvent (c : Render) (keyCode : Z) (pressed : bool)
    (w : World) : World :=
  match bool_decide (r_status c ≠ Running), r_displayElement c with
  | false, Some display =>
      let eventType := if pressed then "keydown" else "keyup" in
      emit (DispatchEvent display eventType (JS.ToUint32 keyCode)) w
  | _, _ => w
  end.

(** The cleanup of the unmount effect. *)
Definition cleanup (w : World) : World := revoke_current w.

(** *** Live object URLs *)

(** The object URLs that are live after a run of calls. *)
Definition live_step (live : gset string) (e : Event) : gset string :=
  match e with
  | CreateObjectURL _ url => live ∪ {[url]}
  | RevokeObjectURL url => live ∖ {[url]}
  | _ => live
  end.

Definition live_after (tr : list Event) : gset string :=
  foldl live_step ∅ tr.

(** *** Sequences of operations *)

(** One operation on the hook, with the render whose callback is used and
    the answers of the page and the engine; [OpAttach] is React writing the
    container ref. *)
Inductive Op : Type :=
| OpInitialize (c : Render) (so : ScriptOutcome) (io : Settled unit)
| OpLoadJAR (c : Render) (so : ScriptOutcome) (io : Settled unit)
    (lo : LoadOutcome) (jarBlob : Blob) (className : string)
    (screenWidth screenHeight : JS.number)
| OpStop
| OpSendKeyEvent (c : Render) (keyCode : Z) (pressed : bool)
| OpAttach (container : option Element)
| OpCleanup.

Definition run_op (w : World) (op : Op) : World :=
  match op with
  | OpInitialize c so io => (initialize c so io w).2
  | OpLoadJAR c so io lo b cls sw sh => (loadJAR c so io lo b cls sw sh w).2
  | OpStop => stop w
  | OpSendKeyEvent c k p => sendKeyEvent c k p w
  | OpAttach container => set_containerRef container w
  | OpCleanup => cleanup w
  end.

Definition run_ops (w : World) (ops : list Op) : World := foldl run_op w ops.

(** Calls through the callbacks of the latest render. *)
Definition call_initialize (so : ScriptOutcome) (io : Settled unit)
    (w : World) : Settled bool * World :=
  initialize (render w) so io w.

(** [n] calls of [initialize] one after the other, each through the latest
    render and each answered by the matching entry of [answers]. *)
Fixpoint initialize_seq (answers : list (ScriptOutcome * Settled unit))
    (w : World) : list (Settled bool) * World :=
  match answers with
  | [] => ([], w)
  | (so, io) :: rest =>
      let '(r, w1) := call_initialize so io w in
      let '(rs, w2) := initialize_seq rest w1 in
      (r :: rs, w2)
  end.

Definition is_init_call (e : Event) : bool :=
  match e with CheerpjInit _ _ _ => true | _ => false end.

Definition is_script_load (e : Event) : bool :=
  match e with AppendScript _ => true | _ => false end.

End Hook.

(** ** Vocabulary of the statements *)

(** A string is trimmed when neither its first nor its last character is
    white space. *)
Definition starts_white (s : string) : bool :=
  match s with
  | String a _ => JS.is_white a
  | EmptyString => false
  end.

Fixpoint ends_white (s : string) : bool :=
  match s with
  | EmptyString => false
  | String a EmptyString => JS.is_white a
  | String _ s' => ends_white s'
  end.

Definition trimmed (s : string) : Prop :=
  starts_white s = false ∧ ends_white s = false.

Fixpoint all_white (s : string) : bool :=
  match s with
  | EmptyString => true
  | String a s' => JS.is_white a && all_white s'
  end.

(** A line that opens an entry: it does not start with a space and holds a
    colon.  Its key is the trimmed text before the first colon, its value
    the text after it. *)
Definition header_key (line : string) : option string :=
  if JS.startsWith " " line then None
  else (λ i, JS.trim (JS.substring line 0 (Some i))) <$> JS.indexOf ":" line.

Definition header_value (line : string) : string :=
  match JS.indexOf ":" line with
  | Some i => JS.substring line (i + 1) None
  | None => ""
  end.

(** What a line that opens no entry adds to the current value: its text
    after the leading space if it is a continuation line, nothing if it is
    a line the parser skips. *)
Definition continuation_text (line : string) : string :=
  if JS.startsWith " " line then JS.substring line 1 None else "".


Definition CRLF : string := String JS.CR (String JS.LF "").
Definition LF : string := String JS.LF "".

(** The pieces of a list, one after the other. *)
Definition str_concat (pieces : list string) : string :=
  foldr String.append "" pieces.


(** The entry [parseMIDletEntries] builds for index [i] of [m]. *)
Definition midlet_at (m : gmap string string) (i : nat) : MIDletInfo :=
  midlet_of i (default "" (m !! midlet_key i)).

(** The derived class name of a manifest: the class of its first entry
    when that class is a non-empty string, the fallback ["Start"] in every
    other case. *)
Definition class_name_derived (r : JARManifest) : Prop :=
  className r =
    match midlets r with
    | e :: _ => if decide (MIDlet.className e = "") then "Start"
                else MIDlet.className e
    | [] => "Start"
    end.

(** Calls that neither create nor revoke an object URL. *)
Definition handle_neutral (e : Hook.Event) : bool :=
  match e with
  | Hook.CreateObjectURL _ _ | Hook.RevokeObjectURL _ => false
  | _ => true
  end.

(** At every moment of a run of calls, at most one object URL is live. *)
Definition one_live_at_most (tr : list Hook.Event) : Prop :=
  ∀ p, p `prefix_of` tr → size (Hook.live_after p) ≤ 1.

(** The handle the hook holds, as a set. *)
Definition held_handle (w : Hook.World) : gset string :=
  match Hook.jarUrlRef w with
  | Some url => {[ url ]}
  | None => ∅
  end.

(** The invariant of the handle: the history never had two live URLs, the
    live ones are among the one the ref holds, and the ref never holds the
    empty string. *)
Definition handles_ok (w : Hook.World) : Prop :=
  one_live_at_most (Hook.trace w) ∧
  Hook.live_after (Hook.trace w) ⊆ held_handle w ∧
  Hook.jarUrlRef w ≠ Some "".

(** One uninterrupted piece of the hook's work, seen from the handle: the
    synchronous block of [loadJAR] that swaps the URL (with what follows
    it), [stop], the unmount cleanup, or any other piece -- a part of
    [initialize], a [catch] block, a key event, React writing a ref -- which
    leaves the ref alone and makes no URL call.  Runs of such pieces cover
    the interleavings of operations that overlap at their [await]s. *)
Inductive handle_step : Hook.World → Hook.World → Prop :=
| step_other w w' new :
    Hook.jarUrlRef w' = Hook.jarUrlRef w →
    Hook.trace w' = Hook.trace w ++ new →
    Forall (λ e, handle_neutral e = true) new →
    handle_step w w'
| step_load lo jarBlob className screenWidth screenHeight w :
    handle_step w
      (Hook.loadJAR_try lo jarBlob className screenWidth screenHeight w).2
| step_stop w : handle_step w (Hook.stop w)
| step_cleanup w : handle_step w (Hook.cleanup w).

(** The states of the hook that some sequence of operations reaches from
    its first render. *)
Definition reachable (w : Hook.World) : Prop :=
  ∃ present container ops,
    w = Hook.run_ops (Hook.init_world present container) ops.

(** The revocation that [loadJAR] and [stop] perform for the handle held. *)
Definition release_of (w : Hook.World) : list Hook.Event :=
  match Hook.jarUrlRef w with
  | Some url => [Hook.RevokeObjectURL url]
  | None => []
  end.

(** A session used to exercise the statements: a first load in a page that
    has the engine, a second load from the re-rendered hook, and a stop. *)
Definition two_loads_and_stop : list Hook.Op :=
  [ Hook.OpLoadJAR (Hook.render (Hook.init_world true (Some 7)))
      Hook.ScriptSilent (Hook.Fulfilled ())
      {| Hook.display_result := inr 8; Hook.run_result := Hook.Pending |}
      "jar-1" "a.Main" (JS.Num 240) (JS.Num 320);
    Hook.OpLoadJAR
      {| Hook.r_status := Hook.Running; Hook.r_isReady := true;
         Hook.r_displayElement := Some 8 |}
      Hook.ScriptSilent Hook.Pending
      {| Hook.display_result := inr 9; Hook.run_result := Hook.Fulfilled () |}
      "jar-2" "b.Main" (JS.Num 176) (JS.Num 220);
    Hook.OpStop ].

(** A first load in a page that has the engine and a mounted container;
    the engine creates the display 8 and the program keeps running. *)
Definition one_load : list Hook.Op :=
  [ Hook.OpLoadJAR (Hook.render (Hook.init_world true (Some 7)))
      Hook.ScriptSilent (Hook.Fulfilled ())
      {| Hook.display_result := inr 8; Hook.run_result := Hook.Pending |}
      "jar-1" "a.Main" (JS.Num 240) (JS.Num 320) ].

(** ** The rest of the code: icon extraction, the loader, the key table
    and the emulator's screen size *)

Module JSText.

(** [c.toLowerCase()] on the code units below 256: the letters A-Z and the
    capital letters of Latin-1 (all of C0..DE but the multiplication sign)
    move up by 32. *)
Definition lower_char (c : ascii) : ascii :=
  let n := N_of_ascii c in
  if ((65 <=? n) && (n <=? 90) ||
      (192 <=? n) && (n <=? 222) && negb (n =? 215))%N
  then ascii_of_N (n + 32) else c.

(** [s.toLowerCase()]. *)
Fixpoint toLowerCase (s : string) : string :=
  match s with
  | EmptyString => EmptyString
  | String a s' => String (lower_char a) (toLowerCase s')
  end.

(** [s.endsWith(suffix)]. *)
Definition endsWith (suffix s : string) : bool :=
  Nat.leb (String.length suffix) (String.length s) &&
  String.eqb (JS.drop (String.length s - String.length suffix) s) suffix.

(** [s.replace(/^\//, "")]: one leading slash is removed. *)
Definition strip_slash (s : string) : string :=
  match s with
  | String "/" s' => s'
  | _ => s
  end.

(** Truthiness of a Number: [NaN] and zero are falsy. *)
Definition number_truthy (n : JS.number) : bool :=
  match n with
  | JS.NaN => false
  | JS.Num z => negb (z =? 0)%Z
  | JS.Infinity _ => true
  end.

(** [n || d] on Numbers. *)
Definition number_or (n d : JS.number) : JS.number :=
  if number_truthy n then n else d.

End JSText.

(** [iconPath.split(".").pop()?.toLowerCase() || "png"], then the choice of
    the MIME type. *)
Definition icon_mime (iconPath : string) : string :=
  let ext :=
    JS.or_default (JSText.toLowerCase <$> last (JS.split "." iconPath)) "png" in
  if String.eqb ext "gif" then "image/gif" else "image/png".

Section extract_icon.

(** What [async("base64")] settles to for an entry of the archive: JSZip's
    encoding of the entry's bytes, or a rejection. *)
Variable async_base64 : ZipObject → Thrown + string.

(** [extractIcon]: the value the returned promise is fulfilled with, [None]
    for [null]; the [catch] block turns every rejection into [null]. *)
Definition extractIcon (file : File) (iconPath : string) : option string :=
  match loadAsync file with
  | inl _ => None
  | inr contents =>
      match zip_file contents (JSText.strip_slash iconPath) with
      | None => None
      | Some iconFile =>
          match async_base64 iconFile with
          | inl _ => None
          | inr iconData =>
              Some ("data:" +:+ icon_mime iconPath +:+ ";base64," +:+ iconData)
          end
      end
  end.

End extract_icon.

(** [JarLoader]'s [handleFile]: either an error message is shown, or
    [onJarLoaded] is called with the file and its manifest (the callback
    given by [App] does not throw). *)
Inductive LoaderResult : Type :=
| ShowError (message : string)
| JarLoaded (file : File) (manifest : JARManifest).

Definition handleFile (file : File) : LoaderResult :=
  if negb (JSText.endsWith ".jar" (JSText.toLowerCase (file_name file)))
  then ShowError "Please select a valid JAR file"
  else
    match parseJAR file with
    | inr manifest => JarLoaded file manifest
    | inl err => ShowError (Hook.message_of err "Failed to parse JAR file")
    end.

(** [Emulator]: [manifest?.screenWidth || 240] and
    [manifest?.screenHeight || 320]. *)
Definition emulator_screenWidth (manifest : option JARManifest) : JS.number :=
  match manifest with
  | Some m => JSText.number_or (screenWidth m) (JS.Num 240)
  | None => JS.Num 240
  end.

Definition emulator_screenHeight (manifest : option JARManifest) : JS.number :=
  match manifest with
  | Some m => JSText.number_or (screenHeight m) (JS.Num 320)
  | None => JS.Num 320
  end.

Module Keys.

(** [J2ME_KEYS]. *)
Definition UP : Z := -1.
Definition DOWN : Z := -2.
Definition LEFT : Z := -3.
Definition RIGHT : Z := -4.
Definition FIRE : Z := -5.
Definition SOFT_LEFT : Z := -6.
Definition SOFT_RIGHT : Z := -7.
Definition KEY_0 : Z := 48.
Definition KEY_1 : Z := 49.
Definition KEY_2 : Z := 50.
Definition KEY_3 : Z := 51.
Definition KEY_4 : Z := 52.
Definition KEY_5 : Z := 53.
Definition KEY_6 : Z := 54.
Definition KEY_7 : Z := 55.
Definition KEY_8 : Z := 56.
Definition KEY_9 : Z := 57.
Definition KEY_STAR : Z := 42.
Definition KEY_HASH : Z := 35.

(** [KEYBOARD_MAPPING], by its own properties. *)
Definition KEYBOARD_MAPPING : gmap string Z :=
  list_to_map
    [ ("ArrowUp", UP); ("ArrowDown", DOWN); ("ArrowLeft", LEFT);
      ("ArrowRight", RIGHT); ("Enter", FIRE); (" ", FIRE);
      ("KeyQ", SOFT_LEFT); ("KeyE", SOFT_RIGHT);
      ("Digit0", KEY_0); ("Digit1", KEY_1); ("Digit2", KEY_2);
      ("Digit3", KEY_3); ("Digit4", KEY_4); ("Digit5", KEY_5);
      ("Digit6", KEY_6); ("Digit7", KEY_7); ("Digit8", KEY_8);
      ("Digit9", KEY_9);
      ("Numpad0", KEY_0); ("Numpad1", KEY_1); ("Numpad2", KEY_2);
      ("Numpad3", KEY_3); ("Numpad4", KEY_4); ("Numpad5", KEY_5);
      ("Numpad6", KEY_6); ("Numpad7", KEY_7); ("Numpad8", KEY_8);
      ("Numpad9", KEY_9) ].

End Keys.

(** ** More vocabulary *)

(** A key the parser can store: not empty and not [__proto__]. *)
Definition storable (k : string) : Prop := k ≠ "" ∧ k ≠ "__proto__".

(** A character that cannot start a decimal number, a sign or white
    space. *)
Definition not_numeric_start (c : ascii) : Prop :=
  JS.is_white c = false ∧ c ≠ "-"%char ∧ c ≠ "+"%char ∧ JS.digit c = None.

(** The render an operation's callback comes from claims to be ready. *)
Definition claims_ready (op : Hook.Op) : bool :=
  match op with
  | Hook.OpInitialize c _ _ => Hook.r_isReady c
  | Hook.OpLoadJAR c _ _ _ _ _ _ _ => Hook.r_isReady c
  | _ => false
  end.

(** A run of operations in which every callback comes from a render of the
    hook as it was at that moment or earlier: none claims to be ready
    before the hook is. *)
Fixpoint honest_run (w : Hook.World) (ops : list Hook.Op) : Prop :=
  match ops with
  | [] => True
  | op :: ops' =>
      (claims_ready op = true → Hook.isReady w = true) ∧
      honest_run (Hook.run_op w op) ops'
  end.

Definition is_run_main (e : Hook.Event) : bool :=
  match e with Hook.RunMain _ _ => true | _ => false end.

Definition is_create_display (e : Hook.Event) : bool :=
  match e with Hook.CreateDisplay _ _ _ => true | _ => false end.

Definition is_key_op (op : Hook.Op) : bool :=
  match op with Hook.OpSendKeyEvent _ _ _ => true | _ => false end.

(** The hook while a first [loadJAR] waits for the program, in a page with
    a mounted container where the engine created the display 8. *)
Definition suspended_run : Hook.World :=
  {| Hook.status := Hook.Running; Hook.error := None; Hook.isReady := false;
     Hook.displayElement := Some 8; Hook.containerRef := Some 7;
     Hook.jarUrlRef := Some "blob:0"; Hook.cheerpjInit_present := true;
     Hook.urls_minted := 1;
     Hook.trace := [ Hook.CreateObjectURL "jar" "blob:0";
                     Hook.CreateDisplay (JS.Num 240) (JS.Num 320) 7;
                     Hook.RunMain "a.Main" "/app/blob:0:lib/" ] |}.

(** * Properties *)

(** ** Strings *)

Section strings.
Implicit Types (s t : string) (a c : ascii) (n : nat).

Lemma str_app_nil_l s : "" +:+ s = s.
Proof. reflexivity. Qed.

Lemma str_app_cons a s t : String a s +:+ t = String a (s +:+ t).
Proof. reflexivity. Qed.

Lemma str_app_nil_r s : s +:+ "" = s.
Proof.
  induction s as [|a s IH]; [done|]. by rewrite str_app_cons, IH.
Qed.

Lemma str_app_assoc s t u : (s +:+ t) +:+ u = s +:+ t +:+ u.
Proof.
  induction s as [|a s IH]; [done|]. by rewrite !str_app_cons, IH.
Qed.

Lemma drop_nil n : JS.drop n "" = "".
Proof. by destruct n. Qed.




Lemma take_min s n : JS.take (n `min` String.length s) s = JS.take n s.
Proof.
  revert n; induction s as [|a s IH]; intros [|n]; simpl; try done.
  by rewrite IH.
Qed.


(** [s.substring(0, n)] keeps the first [n] characters. *)
Lemma substring_to s n : JS.substring s 0 (Some n) = JS.take n s.
Proof.
  unfold JS.substring; simpl.
  rewrite Nat.sub_0_r. apply take_min.
Qed.


Lemma trimStart_not_white s : starts_white (JS.trimStart s) = false.
Proof.
  induction s as [|a s IH]; simpl; [done|].
  destruct (JS.is_white a) eqn:Ha; [done | by simpl].
Qed.

Lemma trimEnd_not_white s : ends_white (JS.trimEnd s) = false.
Proof.
  induction s as [|a s IH]; simpl; [done|].
  destruct (JS.trimEnd s) as [|b t] eqn:Ht.
  - destruct (JS.is_white a) eqn:Ha; simpl; done.
  - simpl in *. done.
Qed.

Lemma trimEnd_starts s :
  starts_white s = false → starts_white (JS.trimEnd s) = false.
Proof.
  destruct s as [|a s]; simpl; [done|]. intros Ha.
  destruct (JS.trimEnd s); [by rewrite Ha | done].
Qed.

(** The result of [trim] starts and ends with a character that is not
    white space. *)
Lemma trim_trimmed s : trimmed (JS.trim s).
Proof.
  split.
  - apply trimEnd_starts, trimStart_not_white.
  - apply trimEnd_not_white.
Qed.



Lemma trimStart_split s : ∃ l, s = l +:+ JS.trimStart s ∧ all_white l = true.
Proof.
  induction s as [|a s (l & Hl & Hw)]; simpl; [by exists ""|].
  destruct (JS.is_white a) eqn:Ha.
  - exists (String a l). rewrite str_app_cons. simpl. rewrite Ha, Hw.
    split; [by f_equal | done].
  - by exists "".
Qed.

Lemma trimEnd_split s : ∃ r, s = JS.trimEnd s +:+ r ∧ all_white r = true.
Proof.
  induction s as [|a s (r & Hr & Hw)]; simpl; [by exists ""|].
  destruct (JS.trimEnd s) as [|b t] eqn:Ht.
  - rewrite str_app_nil_l in Hr. subst r.
    destruct (JS.is_white a) eqn:Ha.
    + exists (String a s). simpl. by rewrite Ha, Hw.
    + exists s. by rewrite str_app_cons.
  - exists r. split; [|done]. rewrite str_app_cons. by f_equal.
Qed.

(** [trim] removes white space at the two ends and nothing else. *)
Lemma trim_split s :
  ∃ l r, s = l +:+ JS.trim s +:+ r ∧ all_white l = true ∧ all_white r = true.
Proof.
  destruct (trimStart_split s) as (l & Hl & Hwl).
  destruct (trimEnd_split (JS.trimStart s)) as (r & Hr & Hwr).
  exists l, r. split; [|done]. unfold JS.trim. by rewrite <- Hr.
Qed.

End strings.

(** ** [parseManifest] *)

Section parse_manifest.
Implicit Types (st : ParseState) (m : gmap string string).
Implicit Types (line k v : string) (lines : list string).

Lemma lookup_obj_set k v m k' :
  JS.obj_set k v m !! k' =
    if decide (k = "__proto__") then m !! k'
    else if decide (k = k') then Some v else m !! k'.
Proof.
  unfold JS.obj_set. destruct (decide (k = "__proto__")); [done|].
  apply lookup_insert.
Qed.

Lemma truthy_Some k : JS.truthy (Some k) = true ↔ k ≠ "".
Proof.
  simpl. destruct (String.eqb_spec k ""); simpl; split; congruence.
Qed.

Lemma truthy_spec (o : option string) :
  JS.truthy o = true ↔ ∃ v, o = Some v ∧ v ≠ "".
Proof.
  destruct o as [v|].
  - rewrite truthy_Some. naive_solver.
  - simpl. naive_solver.
Qed.

Lemma truthy_false (o : option string) :
  JS.truthy o = false ↔ o = None ∨ o = Some "".
Proof.
  destruct o as [v|]; simpl.
  - destruct (String.eqb_spec v ""); simpl; naive_solver.
  - naive_solver.
Qed.

(** Saving the pending entry binds its key when that key is a non-empty
    string other than [__proto__], and touches no other key. *)
Lemma save_entry_lookup st k :
  save_entry st !! k =
    if decide (currentKey st = k ∧ k ≠ "" ∧ k ≠ "__proto__")
    then Some (JS.trim (currentValue st))
    else manifest st !! k.
Proof.
  unfold save_entry.
  destruct (JS.truthy (Some (currentKey st))) eqn:Ht.
  - apply truthy_Some in Ht. rewrite lookup_obj_set.
    repeat case_decide; naive_solver.
  - apply truthy_false in Ht as [?|[= Ht]]; [done|].
    case_decide; naive_solver.
Qed.




(** A line that opens no entry only extends the current value. *)
Lemma parse_line_continuation st line :
  header_key line = None →
  parse_line st line =
    {| manifest := manifest st;
       currentKey := currentKey st;
       currentValue := currentValue st +:+ continuation_text line |}.
Proof.
  unfold header_key, parse_line, continuation_text.
  destruct (JS.startsWith " " line); [done|].
  destruct (JS.indexOf ":" line); [done|]. intros _.
  rewrite str_app_nil_r. by destruct st.
Qed.

(** A line that opens an entry saves the pending one and starts anew. *)
Lemma parse_line_header st line k :
  header_key line = Some k →
  parse_line st line =
    {| manifest := save_entry st;
       currentKey := k;
       currentValue := header_value line |}.
Proof.
  unfold header_key, parse_line, header_value.
  destruct (JS.startsWith " " line); [done|].
  destruct (JS.indexOf ":" line); [|done]. by intros [= <-].
Qed.

Lemma parse_continuations st lines :
  Forall (λ l, header_key l = None) lines →
  foldl parse_line st lines =
    {| manifest := manifest st;
       currentKey := currentKey st;
       currentValue :=
         currentValue st +:+ str_concat (continuation_text <$> lines) |}.
Proof.
  intros H. revert st.
  induction H as [|l lines Hl _ IH]; intros st; simpl.
  - rewrite str_app_nil_r. by destruct st.
  - rewrite IH, parse_line_continuation by done. simpl.
    by rewrite str_app_assoc.
Qed.

(** Lines that open no entry for [k] leave the binding of [k] alone. *)
Lemma parse_lines_other_keys st lines k :
  currentKey st ≠ k →
  Forall (λ l, header_key l ≠ Some k) lines →
  save_entry (foldl parse_line st lines) !! k = manifest st !! k.
Proof.
  intros Hk H. revert st Hk.
  induction H as [|l lines Hl _ IH]; intros st Hk; simpl.
  - rewrite save_entry_lookup. case_decide; naive_solver.
  - destruct (header_key l) as [k'|] eqn:Hh.
    + rewrite (parse_line_header _ _ _ Hh), IH by (simpl; congruence).
      simpl. rewrite save_entry_lookup. case_decide; naive_solver.
    + rewrite (parse_line_continuation _ _ Hh), IH by done. done.
Qed.

(** The value bound to the key of an entry: the text after the colon of
    its opening line, followed by what the lines up to the next opening
    line add, trimmed -- provided no later line opens the same key. *)
Lemma parse_lines_entry pre h body post k :
  header_key h = Some k → k ≠ "" → k ≠ "__proto__" →
  Forall (λ l, header_key l = None) body →
  head post ≫= header_key ≠ None ∨ post = [] →
  Forall (λ l, header_key l ≠ Some k) post →
  parse_lines (pre ++ h :: body ++ post) !! k =
    Some (JS.trim (header_value h +:+ str_concat (continuation_text <$> body))).
Proof.
  intros Hh Hk Hp Hbody Hhead Hpost. unfold parse_lines.
  rewrite foldl_app. simpl. rewrite foldl_app.
  rewrite (parse_line_header _ _ _ Hh), (parse_continuations _ body) by done.
  simpl.
  set (st2 := {| manifest := _; currentKey := k |}).
  assert (save_entry st2 !! k = Some (JS.trim (currentValue st2))) as Hst2.
  { rewrite save_entry_lookup. simpl. case_decide; naive_solver. }
  destruct post as [|h' post]; [exact Hst2|].
  destruct Hhead as [Hhead|]; [|done]. simpl in Hhead.
  destruct (header_key h') as [k'|] eqn:Hh'; [|done].
  apply Forall_cons in Hpost as [Hk' Hpost]. simpl.
  rewrite (parse_line_header _ _ _ Hh').
  rewrite parse_lines_other_keys by (simpl; congruence). done.
Qed.

End parse_manifest.

(** ** Line endings *)

Section line_endings.
Implicit Types (s line : string) (lines : list string).







End line_endings.

(** ** [parseMIDletEntries] *)

Section midlet_entries.
Implicit Types (m : gmap string string) (i n fuel : nat).

Lemma midlet_key_inj i j : midlet_key i = midlet_key j → i = j.
Proof.
  unfold midlet_key. intros H%(inj (String.app _)). by apply (inj pretty).
Qed.

(** The loop from index [i]: [n] truthy entries and then a falsy one give
    those [n] entries, as soon as the bound allows [n + 1] tests. *)
Lemma midlet_loop_run fuel m i n acc :
  (∀ j, i ≤ j < i + n → JS.truthy (m !! midlet_key j) = true) →
  JS.truthy (m !! midlet_key (i + n)) = false →
  n < fuel →
  midlet_loop fuel m i acc = Some (acc ++ (midlet_at m <$> seq i n)).
Proof.
  revert fuel i acc.
  induction n as [|n IH]; intros [|fuel] i acc Hin Hout Hfuel; try lia.
  - simpl. rewrite Nat.add_0_r in Hout. rewrite Hout.
    by rewrite app_nil_r.
  - simpl. rewrite Hin by lia.
    rewrite IH; [| intros j Hj; apply Hin; lia
                 | by replace (S i + n) with (i + S n) by lia | lia].
    by rewrite <- app_assoc.
Qed.

(** Truthy entries at the indices [1..n] are [n] distinct keys of the
    map. *)
Lemma truthy_prefix_size m n :
  (∀ j, 1 ≤ j ≤ n → JS.truthy (m !! midlet_key j) = true) → n ≤ size m.
Proof.
  intros H.
  assert (NoDup (midlet_key <$> seq 1 n)) as Hnd.
  { apply NoDup_fmap_2; [intros ??; apply midlet_key_inj | apply NoDup_seq]. }
  assert (list_to_set (midlet_key <$> seq 1 n) ⊆ dom m) as Hsub.
  { intros k [j [-> Hj%elem_of_seq]]%elem_of_list_to_set%list_elem_of_fmap.
    apply elem_of_dom. specialize (H j ltac:(lia)).
    apply truthy_spec in H as (v & -> & _). by eexists. }
  apply subseteq_size in Hsub.
  rewrite size_list_to_set, length_fmap, length_seq, size_dom in Hsub by done.
  done.
Qed.

(** Every map has a first falsy index. *)
Lemma first_falsy_index m :
  ∃ n, (∀ j, 1 ≤ j ≤ n → JS.truthy (m !! midlet_key j) = true) ∧
       JS.truthy (m !! midlet_key (S n)) = false.
Proof.
  assert (∀ N, (∃ n, (∀ j, 1 ≤ j ≤ n → JS.truthy (m !! midlet_key j) = true) ∧
                     JS.truthy (m !! midlet_key (S n)) = false) ∨
               (∀ j, 1 ≤ j ≤ N → JS.truthy (m !! midlet_key j) = true)) as H.
  { induction N as [|N [IH|IH]].
    - right. intros j Hj. lia.
    - by left.
    - destruct (JS.truthy (m !! midlet_key (S N))) eqn:Ht.
      + right. intros j Hj. destruct (decide (j = S N)) as [->|]; [done|].
        apply IH. lia.
      + left. by exists N. }
  destruct (H (S (size m))) as [?|Hall]; [done|].
  apply truthy_prefix_size in Hall. lia.
Qed.

(** The bound of [parseMIDletEntries] is never reached: the loop leaves by
    its own test, with that bound and with any larger one. *)
Lemma midlet_loop_enough m fuel :
  size m < fuel →
  midlet_loop fuel m 1 [] = Some (parseMIDletEntries m).
Proof.
  intros Hfuel. destruct (first_falsy_index m) as (n & Hin & Hout).
  pose proof (truthy_prefix_size m n Hin) as Hn.
  assert (∀ j, 1 ≤ j < 1 + n → JS.truthy (m !! midlet_key j) = true) as Hin'
    by (intros j Hj; apply Hin; lia).
  unfold parseMIDletEntries.
  rewrite (midlet_loop_run fuel m 1 n []) by (done || lia).
  rewrite (midlet_loop_run (S (size m)) m 1 n []) by (done || lia).
  done.
Qed.

Lemma parseMIDletEntries_run m n :
  (∀ j, 1 ≤ j ≤ n → JS.truthy (m !! midlet_key j) = true) →
  JS.truthy (m !! midlet_key (S n)) = false →
  parseMIDletEntries m = midlet_at m <$> seq 1 n.
Proof.
  intros Hin Hout. pose proof (truthy_prefix_size m n Hin) as Hn.
  assert (∀ j, 1 ≤ j < 1 + n → JS.truthy (m !! midlet_key j) = true) as Hin'
    by (intros j Hj; apply Hin; lia).
  unfold parseMIDletEntries.
  rewrite (midlet_loop_run (S (size m)) m 1 n []) by (done || lia).
  done.
Qed.

(** A binding to the empty string can be removed without changing the
    result. *)
Lemma parseMIDletEntries_delete_empty m k :
  m !! k = Some "" →
  parseMIDletEntries (delete k m) = parseMIDletEntries m.
Proof.
  intros Hk.
  assert (∀ j, JS.truthy (delete k m !! midlet_key j)
               = JS.truthy (m !! midlet_key j)) as Ht.
  { intros j. destruct (decide (k = midlet_key j)) as [->|Hne].
    - by rewrite lookup_delete_eq, Hk.
    - by rewrite lookup_delete_ne. }
  destruct (first_falsy_index m) as (n & Hin & Hout).
  rewrite (parseMIDletEntries_run m n), (parseMIDletEntries_run (delete k m) n);
    try done; [| intros j Hj; rewrite Ht; by apply Hin | by rewrite Ht].
  apply list_fmap_ext. intros _ j Hj%list_elem_of_lookup_2%elem_of_seq.
  unfold midlet_at. f_equal.
  destruct (decide (k = midlet_key j)) as [->|Hne].
  - specialize (Hin j ltac:(lia)). by rewrite Hk in Hin.
  - by rewrite lookup_delete_ne.
Qed.

End midlet_entries.

(** ** The parser against its specification *)

Lemma entry_class_spec (ms : list MIDletInfo) :
  entry_class ms =
    match ms with
    | e :: _ => if decide (MIDlet.className e = "") then "Start"
                else MIDlet.className e
    | [] => "Start"
    end.
Proof.
  unfold entry_class. destruct ms as [|e ms]; [done|]. simpl.
  destruct (String.eqb_spec (MIDlet.className e) ""); simpl;
    case_decide; congruence.
Qed.

(** C1, as stated, fails: for the descriptor [MIDlet-1: Game] the entry
    list has one entry, whose class is the empty string, and the derived
    class name is ["Start"], not the class of that first entry. *)
Lemma className_empty_class_counterexample :
  midlets (parseJAD "MIDlet-1: Game") =
    [ {| MIDlet.name := "Game"; MIDlet.icon := None; MIDlet.className := "" |} ] ∧
  className (parseJAD "MIDlet-1: Game") = "Start" ∧
  ¬ (∀ content,
       className (parseJAD content) =
         match midlets (parseJAD content) with
         | e :: _ => MIDlet.className e
         | [] => "Start"
         end).
Proof.
  split; [by vm_compute|]. split; [by vm_compute|].
  intros H. specialize (H "MIDlet-1: Game"). vm_compute in H. discriminate H.
Qed.

(** C1 (amended).  For every manifest produced by [parseJAD] or [parseJAR],
    the derived [className] is the class of the first MIDlet entry when that
    class is non-empty, and ["Start"] otherwise (no entry, or a first entry
    whose class is empty).  Parsing does not fail because the entry list is
    empty: [parseJAD] always returns a manifest, and [parseJAR] returns one
    whenever the archive loads and its manifest entry can be read. *)
Theorem className_first_entry_or_Start :
  (∀ content, class_name_derived (parseJAD content)) ∧
  (∀ content, midlets (parseJAD content) = [] →
     className (parseJAD content) = "Start") ∧
  (∀ file r, parseJAR file = inr r → class_name_derived r) ∧
  (∀ file contents obj txt,
     loadAsync file = inr contents →
     contents !! "META-INF/MANIFEST.MF" = Some obj →
     dir obj = false → text obj = inr txt →
     ∃ r, parseJAR file = inr r ∧
          midlets r = parseMIDletEntries (parseManifest txt) ∧
          className r = entry_class (midlets r)).
Proof.
  split; [|split; [|split]].
  - intros content. unfold class_name_derived. simpl. apply entry_class_spec.
  - intros content. simpl. by intros ->.
  - intros file r. unfold parseJAR.
    destruct (loadAsync file) as [e|contents]; [done|].
    destruct (zip_file contents _) as [obj|]; [|done].
    destruct (text obj) as [e|txt]; [done|].
    intros [= <-]. unfold class_name_derived. simpl. apply entry_class_spec.
  - intros file contents obj txt Hload Hobj Hdir Htxt.
    unfold parseJAR, zip_file. rewrite Hload, Hobj, Hdir, Htxt.
    eexists. split; [done|]. by simpl.
Qed.

(** An archive whose manifest declares no MIDlet at all still parses, and
    its class name is the fallback. *)
Lemma className_first_entry_or_Start_witness :
  ∃ r, parseJAR {| file_name := "game.jar";
                   loadAsync := inr {[ "META-INF/MANIFEST.MF" :=
                     {| dir := false; text := inr "MIDlet-Name: Game" |} ]} |}
       = inr r ∧
       midlets r = [] ∧ className r = "Start" ∧ class_name_derived r.
Proof.
  destruct className_first_entry_or_Start as (_ & _ & Hd & Hjar).
  edestruct (Hjar {| file_name := "game.jar";
                     loadAsync := inr {[ "META-INF/MANIFEST.MF" :=
                       {| dir := false; text := inr "MIDlet-Name: Game" |} ]} |})
    as (r & Hr & Hm & Hc); [reflexivity | reflexivity | reflexivity | reflexivity |].
  exists r. split; [exact Hr|].
  assert (midlets r = []) as Hnil by (rewrite Hm; vm_compute; reflexivity).
  split; [exact Hnil|]. split; [by rewrite Hc, Hnil | by apply (Hd _ _ Hr)].
Defined.

(** C2, as stated, fails: the manifest text [MIDlet-1:] yields a mapping that
    contains the key [MIDlet-1] and not [MIDlet-2], yet no entry is
    returned. *)
Lemma parseMIDletEntries_present_key_counterexample :
  is_Some (parseManifest "MIDlet-1:" !! midlet_key 1) ∧
  parseManifest "MIDlet-1:" !! midlet_key 2 = None ∧
  parseMIDletEntries (parseManifest "MIDlet-1:") = [] ∧
  ¬ (∀ (m : gmap string string) n,
       (∀ i, 1 ≤ i ≤ n → is_Some (m !! midlet_key i)) →
       m !! midlet_key (S n) = None →
       length (parseMIDletEntries m) = n).
Proof.
  assert (parseManifest "MIDlet-1:" !! midlet_key 1 = Some "") as H1
    by (vm_compute; reflexivity).
  assert (parseManifest "MIDlet-1:" !! midlet_key 2 = None) as H2
    by (vm_compute; reflexivity).
  assert (parseMIDletEntries (parseManifest "MIDlet-1:") = []) as H3
    by (vm_compute; reflexivity).
  split; [by rewrite H1|]. split; [done|]. split; [done|].
  intros H. specialize (H (parseManifest "MIDlet-1:") 1).
  rewrite H3 in H. simpl in H. enough (0 = 1) by lia. apply H; [|done].
  intros i Hi. replace i with 1 by lia. by rewrite H1.
Qed.

(** C2 (amended).  If the mapping binds each of [MIDlet-1] .. [MIDlet-n] to a
    non-empty string and [MIDlet-(n+1)] is missing or bound to the empty
    string, [parseMIDletEntries] returns exactly [n] entries, the [i]-th
    built from the value of [MIDlet-i]; whatever the mapping holds at larger
    indices is ignored. *)
Theorem parseMIDletEntries_contiguous (m : gmap string string) (n : nat) :
  (∀ i, 1 ≤ i ≤ n → ∃ v, m !! midlet_key i = Some v ∧ v ≠ "") →
  m !! midlet_key (S n) = None ∨ m !! midlet_key (S n) = Some "" →
  parseMIDletEntries m = midlet_at m <$> seq 1 n ∧
  length (parseMIDletEntries m) = n.
Proof.
  intros Hin Hout.
  assert (parseMIDletEntries m = midlet_at m <$> seq 1 n) as ->.
  { apply parseMIDletEntries_run.
    - intros j Hj. apply truthy_spec. by apply Hin.
    - by apply truthy_false. }
  split; [done|]. by rewrite length_fmap, length_seq.
Qed.

Lemma parseMIDletEntries_contiguous_witness :
  parseMIDletEntries
    (parseManifest ("MIDlet-1: A, /a.png, a.Main" +:+ LF +:+
                    "MIDlet-2: B,,b.Main" +:+ LF +:+ "MIDlet-4: D,,d.Main"))
  = [ {| MIDlet.name := "A"; MIDlet.icon := Some "/a.png";
         MIDlet.className := "a.Main" |};
      {| MIDlet.name := "B"; MIDlet.icon := None;
         MIDlet.className := "b.Main" |} ].
Proof.
  refine (eq_trans (proj1 (parseMIDletEntries_contiguous _ 2 _ _)) _).
  - intros i Hi.
    destruct (decide (i = 1)) as [->|]; [by eexists; split; [vm_compute|]|].
    replace i with 2 by lia. by eexists; split; [vm_compute|].
  - left. by vm_compute.
  - by vm_compute.
Defined.

(** C3.  [parseScreenSize] returns 176x220 when the mapping binds
    [MIDlet-Screen-Width] to [176] and [MIDlet-Screen-Height] to [220];
    128x128 when it binds [Nokia-MIDlet-Canvas-Size] to [128x128] and has
    neither explicit field; and the default 240x320 when it has none of the
    three fields. *)
Theorem parseScreenSize_cases :
  (∀ m : gmap string string,
     m !! "MIDlet-Screen-Width" = Some "176" →
     m !! "MIDlet-Screen-Height" = Some "220" →
     parseScreenSize m = {| width := JS.Num 176; height := JS.Num 220 |}) ∧
  (∀ m : gmap string string,
     m !! "Nokia-MIDlet-Canvas-Size" = Some "128x128" →
     m !! "MIDlet-Screen-Width" = None →
     m !! "MIDlet-Screen-Height" = None →
     parseScreenSize m = {| width := JS.Num 128; height := JS.Num 128 |}) ∧
  (∀ m : gmap string string,
     m !! "MIDlet-Screen-Width" = None →
     m !! "MIDlet-Screen-Height" = None →
     m !! "Nokia-MIDlet-Canvas-Size" = None →
     parseScreenSize m = {| width := JS.Num 240; height := JS.Num 320 |}).
Proof.
  split; [|split].
  - intros m Hw Hh. unfold parseScreenSize. rewrite Hw, Hh. reflexivity.
  - intros m Hc Hw Hh. unfold parseScreenSize. rewrite Hc, Hw, Hh. reflexivity.
  - intros m Hw Hh Hc. unfold parseScreenSize. rewrite Hc, Hw, Hh. reflexivity.
Qed.

Lemma parseScreenSize_cases_witness :
  parseScreenSize (parseManifest ("MIDlet-Screen-Width: 176" +:+ CRLF +:+
                                  "MIDlet-Screen-Height: 220"))
    = {| width := JS.Num 176; height := JS.Num 220 |} ∧
  parseScreenSize (parseManifest "Nokia-MIDlet-Canvas-Size: 128x128")
    = {| width := JS.Num 128; height := JS.Num 128 |} ∧
  parseScreenSize (parseManifest "MIDlet-Name: Game")
    = {| width := JS.Num 240; height := JS.Num 320 |}.
Proof.
  destruct parseScreenSize_cases as (H1 & H2 & H3).
  split; [|split].
  - apply H1; vm_compute; reflexivity.
  - apply H2; vm_compute; reflexivity.
  - apply H3; vm_compute; reflexivity.
Defined.

(** C5.  For an archive with no entry at [META-INF/MANIFEST.MF], [parseJAR]
    rejects with the error [Invalid JAR: MANIFEST.MF not found]; the result
    is not a manifest. *)
Theorem parseJAR_missing_manifest (file : File) (contents : gmap string ZipObject) :
  loadAsync file = inr contents →
  contents !! "META-INF/MANIFEST.MF" = None →
  parseJAR file = inl (ErrorObj "Invalid JAR: MANIFEST.MF not found") ∧
  ∀ r, parseJAR file ≠ inr r.
Proof.
  intros Hload Hnone.
  assert (parseJAR file = inl (ErrorObj "Invalid JAR: MANIFEST.MF not found")) as H.
  { unfold parseJAR, zip_file. by rewrite Hload, Hnone. }
  split; [done|]. intros r. by rewrite H.
Qed.

Lemma parseJAR_missing_manifest_witness :
  parseJAR {| file_name := "game.jar";
              loadAsync := inr {[ "Main.class" :=
                {| dir := false; text := inr "" |} ]} |}
  = inl (ErrorObj "Invalid JAR: MANIFEST.MF not found").
Proof.
  refine (proj1 (parseJAR_missing_manifest _
           {[ "Main.class" := {| dir := false; text := inr "" |} ]} _ _)).
  - reflexivity.
  - vm_compute. reflexivity.
Defined.

(** Every field of the result is read through [||] or a truthiness test, so
    a key bound to the empty string is read as a missing one. *)
Lemma or_default_delete_empty (m : gmap string string) (key k d : string) :
  m !! key = Some "" →
  JS.or_default (delete key m !! k) d = JS.or_default (m !! k) d.
Proof.
  intros Hkey. destruct (decide (key = k)) as [<-|Hne].
  - by rewrite lookup_delete_eq, Hkey.
  - by rewrite lookup_delete_ne.
Qed.

Lemma parseScreenSize_delete_empty (m : gmap string string) (key : string) :
  m !! key = Some "" →
  parseScreenSize (delete key m) = parseScreenSize m.
Proof.
  intros Hkey. unfold parseScreenSize.
  assert (∀ k, JS.truthy (delete key m !! k) = JS.truthy (m !! k)) as Ht.
  { intros k. destruct (decide (key = k)) as [<-|Hne].
    - by rewrite lookup_delete_eq, Hkey.
    - by rewrite lookup_delete_ne. }
  assert (∀ k, JS.truthy (m !! k) = true → delete key m !! k = m !! k) as Hv.
  { intros k Hk. destruct (decide (key = k)) as [<-|Hne].
    - by rewrite Hkey in Hk.
    - by rewrite lookup_delete_ne. }
  rewrite !Ht.
  assert (∀ i,
            JS.truthy ((JS.split "x" <$>
                          delete key m !! "Nokia-MIDlet-Canvas-Size")
                         ≫= (λ parts, parts !! i))
            = JS.truthy ((JS.split "x" <$> m !! "Nokia-MIDlet-Canvas-Size")
                           ≫= (λ parts, parts !! i)) ∧
            default "" ((JS.split "x" <$>
                           delete key m !! "Nokia-MIDlet-Canvas-Size")
                          ≫= (λ parts, parts !! i))
            = default "" ((JS.split "x" <$> m !! "Nokia-MIDlet-Canvas-Size")
                            ≫= (λ parts, parts !! i))) as Hcanvas.
  { intros i. destruct (decide (key = "Nokia-MIDlet-Canvas-Size")) as [->|Hne].
    - rewrite lookup_delete_eq, Hkey. by destruct i as [|[|i]].
    - by rewrite lookup_delete_ne. }
  destruct (JS.truthy (m !! "MIDlet-Screen-Width")) eqn:HW,
    (JS.truthy (m !! "MIDlet-Screen-Height")) eqn:HH;
    rewrite ?(Hv _ HW), ?(Hv _ HH), ?HW, ?HH;
    repeat match goal with
           | |- context [JS.truthy ((JS.split "x" <$> delete key m !! _) ≫= _)] =>
               rewrite (proj1 (Hcanvas _)), (proj2 (Hcanvas _))
           end; reflexivity.
Qed.

(** C10, as stated, fails in its last part: [parseJAD] and [parseJAR] return
    the mapping itself as [rawManifest], and there the key of an empty entry
    is bound (to the empty string) while the key of a missing one is not.
    The descriptor [MIDlet-1:] and the empty descriptor give the same entry
    list and two different manifests. *)
Lemma empty_entry_in_rawManifest_counterexample :
  midlets (parseJAD "MIDlet-1:") = midlets (parseJAD "") ∧
  rawManifest (parseJAD "MIDlet-1:") !! "MIDlet-1" = Some "" ∧
  rawManifest (parseJAD "") !! "MIDlet-1" = None ∧
  parseJAD "MIDlet-1:" ≠ parseJAD "".
Proof.
  assert (rawManifest (parseJAD "MIDlet-1:") !! "MIDlet-1" = Some "") as Hin
    by (vm_compute; reflexivity).
  assert (rawManifest (parseJAD "") !! "MIDlet-1" = None) as Hout
    by (vm_compute; reflexivity).
  split; [vm_compute; reflexivity|]. split; [done|]. split; [done|].
  intros Heq. rewrite Heq, Hout in Hin. discriminate.
Qed.

(** C10 (amended).  If the mapping binds [MIDlet-k] to the empty string and
    the entries before [k] are non-empty, [parseMIDletEntries] returns the
    [k-1] earlier entries only; removing a key bound to the empty string
    never changes the list returned nor the class name derived from it; and
    in what [parseJAD] and [parseJAR] return, a key bound to the empty
    string cannot be told from a missing one through any field but
    [rawManifest], which records it. *)
Theorem parseMIDletEntries_empty_entry_stops :
  (∀ (m : gmap string string) k,
     1 ≤ k →
     m !! midlet_key k = Some "" →
     (∀ i, 1 ≤ i < k → ∃ v, m !! midlet_key i = Some v ∧ v ≠ "") →
     parseMIDletEntries m = midlet_at m <$> seq 1 (k - 1) ∧
     length (parseMIDletEntries m) = k - 1) ∧
  (∀ (m : gmap string string) key,
     m !! key = Some "" →
     parseMIDletEntries (delete key m) = parseMIDletEntries m ∧
     entry_class (parseMIDletEntries (delete key m))
       = entry_class (parseMIDletEntries m)) ∧
  (∀ content content' key,
     parseManifest content !! key = Some "" →
     parseManifest content' = delete key (parseManifest content) →
     midletName (parseJAD content') = midletName (parseJAD content) ∧
     midletVersion (parseJAD content') = midletVersion (parseJAD content) ∧
     midletVendor (parseJAD content') = midletVendor (parseJAD content) ∧
     midlets (parseJAD content') = midlets (parseJAD content) ∧
     screenWidth (parseJAD content') = screenWidth (parseJAD content) ∧
     screenHeight (parseJAD content') = screenHeight (parseJAD content) ∧
     className (parseJAD content') = className (parseJAD content) ∧
     rawManifest (parseJAD content) !! key = Some "" ∧
     rawManifest (parseJAD content') !! key = None) ∧
  (∀ file file' contents contents' obj obj' content content' key,
     loadAsync file = inr contents →
     zip_file contents "META-INF/MANIFEST.MF" = Some obj →
     text obj = inr content →
     loadAsync file' = inr contents' →
     zip_file contents' "META-INF/MANIFEST.MF" = Some obj' →
     text obj' = inr content' →
     file_name file' = file_name file →
     parseManifest content !! key = Some "" →
     parseManifest content' = delete key (parseManifest content) →
     ∃ r r',
       parseJAR file = inr r ∧ parseJAR file' = inr r' ∧
       midletName r' = midletName r ∧
       midletVersion r' = midletVersion r ∧
       midletVendor r' = midletVendor r ∧
       midlets r' = midlets r ∧
       screenWidth r' = screenWidth r ∧
       screenHeight r' = screenHeight r ∧
       className r' = className r ∧
       rawManifest r !! key = Some "" ∧
       rawManifest r' !! key = None).
Proof.
  split; [|split; [|split]].
  - intros m k Hk Hempty Hbefore.
    assert (parseMIDletEntries m = midlet_at m <$> seq 1 (k - 1)) as ->.
    { apply parseMIDletEntries_run.
      - intros j Hj. apply truthy_spec. apply Hbefore. lia.
      - replace (S (k - 1)) with k by lia. by rewrite Hempty. }
    split; [done|]. by rewrite length_fmap, length_seq.
  - intros m key Hempty.
    by rewrite parseMIDletEntries_delete_empty.
  - intros content content' key Hempty Hdel. unfold parseJAD.
    cbn [midletName midletVersion midletVendor midlets screenWidth
         screenHeight className rawManifest].
    rewrite Hdel, !or_default_delete_empty, parseScreenSize_delete_empty,
      parseMIDletEntries_delete_empty by done.
    by rewrite lookup_delete_eq.
  - intros file file' contents contents' obj obj' content content' key
      Hload Hfile Htext Hload' Hfile' Htext' Hname Hempty Hdel.
    unfold parseJAR.
    rewrite Hload, Hfile, Htext, Hload', Hfile', Htext', Hname.
    do 2 eexists. split; [reflexivity|]. split; [reflexivity|].
    cbn [midletName midletVersion midletVendor midlets screenWidth
         screenHeight className rawManifest].
    rewrite Hdel, !or_default_delete_empty, parseScreenSize_delete_empty,
      parseMIDletEntries_delete_empty by done.
    by rewrite lookup_delete_eq.
Qed.

(** Three entries, the second one empty: the list stops after the first,
    and the descriptor without the second line parses to a manifest that
    differs in [rawManifest] only. *)
Lemma parseMIDletEntries_empty_entry_stops_witness :
  parseMIDletEntries
    (parseManifest ("MIDlet-1: A,,a.Main" +:+ LF +:+ "MIDlet-2:   " +:+ LF +:+
                    "MIDlet-3: C,,c.Main"))
  = [ {| MIDlet.name := "A"; MIDlet.icon := None;
         MIDlet.className := "a.Main" |} ] ∧
  parseMIDletEntries
    (delete "MIDlet-2"
       (parseManifest ("MIDlet-1: A,,a.Main" +:+ LF +:+ "MIDlet-2:   " +:+ LF +:+
                       "MIDlet-3: C,,c.Main")))
  = parseMIDletEntries
      (parseManifest ("MIDlet-1: A,,a.Main" +:+ LF +:+ "MIDlet-2:   " +:+ LF +:+
                      "MIDlet-3: C,,c.Main")) ∧
  midlets (parseJAD ("MIDlet-1: A,,a.Main" +:+ LF +:+ "MIDlet-3: C,,c.Main"))
  = midlets (parseJAD ("MIDlet-1: A,,a.Main" +:+ LF +:+ "MIDlet-2:   " +:+ LF +:+
                       "MIDlet-3: C,,c.Main")).
Proof.
  destruct parseMIDletEntries_empty_entry_stops as (Hstop & Hdel & Hjad & _).
  split; [|split].
  - refine (eq_trans (proj1 (Hstop _ 2 _ _ _)) _).
    + lia.
    + vm_compute. reflexivity.
    + intros i Hi. replace i with 1 by lia. by eexists; split; [vm_compute|].
    + vm_compute. reflexivity.
  - apply Hdel. vm_compute. reflexivity.
  - refine (proj1 (proj2 (proj2 (proj2 (Hjad _ _ "MIDlet-2" _ _))))).
    + vm_compute. reflexivity.
    + vm_compute. reflexivity.
Defined.




(** ** The hook: histories and live handles *)

Section handles.
Import Hook.
Implicit Types (w : World) (tr new : list Event) (e : Event).

Lemma prefix_snoc_inv {A} (p l : list A) (x : A) :
  p `prefix_of` l ++ [x] → p `prefix_of` l ∨ p = l ++ [x].
Proof.
  intros [k Hk]. destruct k as [|y k _] using rev_ind.
  - right. by rewrite app_nil_r in Hk.
  - left. rewrite app_assoc in Hk. apply app_inj_tail in Hk as [-> _].
    by exists k.
Qed.

Lemma live_after_snoc tr e :
  live_after (tr ++ [e]) = live_step (live_after tr) e.
Proof. apply foldl_snoc. Qed.

Lemma one_live_at_most_nil : one_live_at_most [].
Proof.
  intros p ->%prefix_nil_inv.
  change (live_after []) with (∅ : gset string). rewrite size_empty. lia.
Qed.

Lemma one_live_at_most_snoc tr e :
  one_live_at_most tr → size (live_after (tr ++ [e])) ≤ 1 →
  one_live_at_most (tr ++ [e]).
Proof.
  intros Htr He p [Hp| ->]%prefix_snoc_inv; [by apply Htr | done].
Qed.

Lemma one_live_at_most_here tr : one_live_at_most tr → size (live_after tr) ≤ 1.
Proof. intros H. by apply H. Qed.

(** Neutral calls change neither the live set nor the bound. *)
Lemma neutral_calls tr new :
  Forall (λ e, handle_neutral e = true) new →
  live_after (tr ++ new) = live_after tr ∧
  (one_live_at_most tr → one_live_at_most (tr ++ new)).
Proof.
  intros H. revert tr. induction H as [|e new He _ IH]; intros tr.
  - by rewrite app_nil_r.
  - replace (tr ++ e :: new) with ((tr ++ [e]) ++ new)
      by by rewrite <- app_assoc.
    destruct (IH (tr ++ [e])) as [-> Hstep].
    assert (live_after (tr ++ [e]) = live_after tr) as Hlive
      by (rewrite live_after_snoc; by destruct e).
    split; [done|]. intros Htr. apply Hstep, one_live_at_most_snoc; [done|].
    rewrite Hlive. by apply one_live_at_most_here.
Qed.

(** A state with the same ref and a history longer by neutral calls keeps
    the invariant. *)
Lemma handles_ok_neutral w w' new :
  jarUrlRef w' = jarUrlRef w →
  trace w' = trace w ++ new →
  Forall (λ e, handle_neutral e = true) new →
  handles_ok w → handles_ok w'.
Proof.
  intros Href Htr Hnew (Hone & Hsub & Hne).
  destruct (neutral_calls (trace w) new Hnew) as [Hlive Hstep].
  unfold handles_ok, held_handle. rewrite Href, Htr, Hlive. auto.
Qed.

(** Releasing the held handle leaves no live URL. *)
Lemma release_live w :
  handles_ok w →
  live_after (trace w ++ release_of w) = ∅ ∧
  one_live_at_most (trace w ++ release_of w).
Proof.
  intros (Hone & Hsub & Hne). unfold release_of, held_handle in *.
  destruct (jarUrlRef w) as [url|].
  - assert (live_after (trace w ++ [RevokeObjectURL url]) = ∅) as Hlive.
    { rewrite live_after_snoc. simpl. set_solver. }
    split; [done|]. apply one_live_at_most_snoc; [done|].
    rewrite Hlive, size_empty. lia.
  - rewrite app_nil_r. split; [set_solver | done].
Qed.

Lemma truthy_ref w :
  jarUrlRef w ≠ Some "" →
  JS.truthy (jarUrlRef w) = match jarUrlRef w with Some _ => true | None => false end.
Proof.
  destruct (jarUrlRef w) as [url|]; [|done]. intros Hne. simpl.
  destruct (String.eqb_spec url ""); [congruence | done].
Qed.

Lemma revoke_current_trace w :
  jarUrlRef w ≠ Some "" →
  trace (revoke_current w) = trace w ++ release_of w.
Proof.
  intros Hne. unfold revoke_current, release_of. rewrite truthy_ref by done.
  destruct (jarUrlRef w); simpl; [done | by rewrite app_nil_r].
Qed.

Lemma blob_url_nonempty (n : nat) : "blob:" +:+ pretty n ≠ "".
Proof. discriminate. Qed.

End handles.

(** ** The hook: its operations *)

Section hook_initialize.
Import Hook.
Implicit Types (w : World) (c : Render).

(** Every way through [initialize]: the render's flag, the entry point, the
    script element and the engine's answer. *)
Ltac initialize_cases c so io w :=
  unfold initialize, initialize_catch, loadScript;
  let Hp := fresh "Hp" in
  destruct (r_isReady c), (cheerpjInit_present w) eqn:Hp, so as [[|]| |], io;
  repeat (simpl; rewrite ?Hp).

(** [initialize] leaves the handle alone, makes no URL call, and injects no
    script when the entry point is there. *)
Lemma initialize_frame c so io w :
  jarUrlRef (initialize c so io w).2 = jarUrlRef w ∧
  ∃ new, trace (initialize c so io w).2 = trace w ++ new ∧
         Forall (λ e, handle_neutral e = true) new ∧
         (cheerpjInit_present w = true → filter is_script_load new = []).
Proof.
  initialize_cases c so io w; (split; [done|]);
    (eexists; split;
       [rewrite <- ?app_assoc; try reflexivity; symmetry; apply app_nil_r|]);
    (split; [repeat constructor | done]).
Qed.

(** A call of [initialize] that is not cut short and succeeds injects the
    script unless the entry point was there, and calls the engine's setup
    once. *)
Lemma initialize_success c so io w w' :
  r_isReady c = false →
  initialize c so io w = (Fulfilled true, w') →
  trace w' = trace w
             ++ (if cheerpjInit_present w then [] else [AppendScript CHEERPJ_CDN])
             ++ [CheerpjInit 8 "none" "java"] ∧
  isReady w' = true ∧ status w' = Idle ∧ error w' = None ∧
  cheerpjInit_present w' = true.
Proof.
  intros Hc. revert Hc.
  initialize_cases c so io w; intros Hc; try discriminate Hc;
    intros [= <-]; simpl; rewrite <- ?app_assoc; done.
Qed.

(** A call that returns [false] has set the status [error] and a message. *)
Lemma initialize_failure c so io w w' :
  initialize c so io w = (Fulfilled false, w') →
  status w' = Error ∧ is_Some (error w').
Proof. initialize_cases c so io w; intros [= <-]; simpl; eauto. Qed.

(** The [catch] block makes the promise of [initialize] never reject. *)
Lemma initialize_never_rejects c so io w e w' :
  initialize c so io w ≠ (Rejected e, w').
Proof. initialize_cases c so io w; done. Qed.

End hook_initialize.

Section hook_handles.
Import Hook.
Implicit Types (w : World) (c : Render).
Local Arguments JS.truthy : simpl never.

Lemma loadJAR_try_handles lo b cls sw sh w :
  jarUrlRef w ≠ Some "" →
  jarUrlRef (loadJAR_try lo b cls sw sh w).2
    = Some ("blob:" +:+ pretty (urls_minted w)) ∧
  ∃ rest,
    trace (loadJAR_try lo b cls sw sh w).2
      = trace w ++ release_of w
          ++ CreateObjectURL b ("blob:" +:+ pretty (urls_minted w)) :: rest ∧
    Forall (λ e, handle_neutral e = true) rest.
Proof.
  intros Hne. pose proof (truthy_ref w Hne) as Ht.
  unfold loadJAR_try, run_main, loadJAR_catch, revoke_current,
    createObjectURL, release_of.
  destruct (jarUrlRef w) as [old|] eqn:Hr, (containerRef w) as [parent|] eqn:Hc,
    lo as [[err|display] [[]|err'|]];
    repeat (simpl; rewrite ?Hr, ?Ht, ?Hc);
    (split; [done|]);
    (eexists; split; [rewrite <- ?app_assoc; simpl; reflexivity|]);
    repeat constructor.
Qed.

Lemma handles_ok_loadJAR_try lo b cls sw sh w :
  handles_ok w → handles_ok (loadJAR_try lo b cls sw sh w).2.
Proof.
  intros Hok. pose proof Hok as (Hone & Hsub & Hne).
  destruct (loadJAR_try_handles lo b cls sw sh w Hne) as (Href & rest & Htr & Hrest).
  destruct (release_live w Hok) as [Hlive Hrel].
  set (url := "blob:" +:+ pretty (urls_minted w)) in *.
  assert (live_after ((trace w ++ release_of w) ++ [CreateObjectURL b url])
          = {[ url ]}) as Hnew.
  { rewrite live_after_snoc, Hlive. simpl. set_solver. }
  destruct (neutral_calls ((trace w ++ release_of w) ++ [CreateObjectURL b url])
              rest Hrest) as [Hlive' Hstep].
  unfold handles_ok, held_handle. rewrite Href, Htr.
  replace (trace w ++ release_of w ++ CreateObjectURL b url :: rest)
    with (((trace w ++ release_of w) ++ [CreateObjectURL b url]) ++ rest)
    by by rewrite <- !app_assoc.
  rewrite Hlive', Hnew. split; [|split; [done | by intros [=] ]].
  apply Hstep, one_live_at_most_snoc; [done|].
  rewrite Hnew, size_singleton. lia.
Qed.

Lemma stop_handles w :
  jarUrlRef w ≠ Some "" →
  trace (stop w) = trace w ++ release_of w ∧
  jarUrlRef (stop w) = None ∧ status (stop w) = Idle ∧
  displayElement (stop w) = None.
Proof.
  intros Hne. pose proof (truthy_ref w Hne) as Ht.
  unfold stop, release_of.
  destruct (jarUrlRef w) as [old|] eqn:Hr; repeat (simpl; rewrite ?Ht, ?Hr);
    rewrite ?app_nil_r; done.
Qed.

Lemma handles_ok_stop w : handles_ok w → handles_ok (stop w).
Proof.
  intros Hok. pose proof Hok as (Hone & Hsub & Hne).
  destruct (stop_handles w Hne) as (Htr & Href & _).
  destruct (release_live w Hok) as [Hlive Hrel].
  unfold handles_ok, held_handle. rewrite Href, Htr, Hlive. done.
Qed.

Lemma handles_ok_cleanup w : handles_ok w → handles_ok (cleanup w).
Proof.
  intros Hok. pose proof Hok as (Hone & Hsub & Hne).
  destruct (release_live w Hok) as [Hlive Hrel].
  unfold handles_ok, held_handle, cleanup.
  rewrite revoke_current_trace, Hlive by done.
  assert (jarUrlRef (revoke_current w) = jarUrlRef w) as ->.
  { unfold revoke_current. by destruct (JS.truthy _). }
  split; [done|]. split; [set_solver | done].
Qed.

Lemma handles_ok_initialize c so io w :
  handles_ok w → handles_ok (initialize c so io w).2.
Proof.
  destruct (initialize_frame c so io w) as (Href & new & Htr & Hnew & _).
  by apply (handles_ok_neutral w _ new).
Qed.

Lemma handles_ok_loadJAR c so io lo b cls sw sh w :
  handles_ok w → handles_ok (loadJAR c so io lo b cls sw sh w).2.
Proof.
  intros Hok. unfold loadJAR.
  destruct (negb (r_isReady c)); [|by apply handles_ok_loadJAR_try].
  pose proof (handles_ok_initialize c so io w Hok) as Hinit.
  destruct (initialize c so io w) as [[[|]|err|] w1]; simpl in *; try done.
  by apply handles_ok_loadJAR_try.
Qed.

Lemma handles_ok_sendKeyEvent c k p w :
  handles_ok w → handles_ok (sendKeyEvent c k p w).
Proof.
  unfold sendKeyEvent.
  destruct (bool_decide _), (r_displayElement c) as [d|]; try done.
  apply (handles_ok_neutral w _ [DispatchEvent d (if p then "keydown" else "keyup") (JS.ToUint32 k)]);
    [done | done | by repeat constructor].
Qed.

Lemma handles_ok_init present container :
  handles_ok (init_world present container).
Proof.
  split; [apply one_live_at_most_nil|]. split; [|done].
  by change (live_after (trace (init_world present container))) with (∅ : gset string).
Qed.

Lemma handle_step_ok w w' : handle_step w w' → handles_ok w → handles_ok w'.
Proof.
  intros [w0 w1 new Href Htr Hnew| | |].
  - by apply (handles_ok_neutral w0 w1 new).
  - apply handles_ok_loadJAR_try.
  - apply handles_ok_stop.
  - apply handles_ok_cleanup.
Qed.

(** Every operation is a run of such pieces. *)
Lemma run_op_steps w op : rtc handle_step w (run_op w op).
Proof.
  destruct op as [c so io|c so io lo b cls sw sh| |c k p|container|]; simpl.
  - apply rtc_once.
    destruct (initialize_frame c so io w) as (Href & new & Htr & Hnew & _).
    by apply (step_other _ _ new).
  - unfold loadJAR. destruct (negb (r_isReady c)).
    + destruct (initialize_frame c so io w) as (Href & new & Htr & Hnew & _).
      assert (handle_step w (initialize c so io w).2) as Hinit
        by by apply (step_other _ _ new).
      destruct (initialize c so io w) as [[[|]|err|] w1]; simpl in *;
        try by apply rtc_once.
      eapply rtc_l; [exact Hinit | apply rtc_once, step_load].
    + apply rtc_once, step_load.
  - apply rtc_once, step_stop.
  - apply rtc_once. unfold sendKeyEvent.
    destruct (bool_decide _), (r_displayElement c) as [d|];
      try (apply (step_other _ _ []); [done | by rewrite app_nil_r | done]).
    apply (step_other _ _ [DispatchEvent d (if p then "keydown" else "keyup") (JS.ToUint32 k)]);
      [done | done | by repeat constructor].
  - apply rtc_once, (step_other _ _ []); [done | by rewrite app_nil_r | done].
  - apply rtc_once, step_cleanup.
Qed.

(** At most one live handle, whatever the interleaving of the pieces. *)
Lemma interleaved_handles_ok present container w :
  rtc handle_step (init_world present container) w → handles_ok w.
Proof.
  intros Hsteps. pose proof (handles_ok_init present container) as Hinit.
  revert Hinit. induction Hsteps as [|w0 w1 w2 Hstep _ IH]; [done|].
  intros Hok. by apply IH, (handle_step_ok w0).
Qed.

Lemma handles_ok_run_op w op : handles_ok w → handles_ok (run_op w op).
Proof.
  destruct op; simpl.
  - apply handles_ok_initialize.
  - apply handles_ok_loadJAR.
  - apply handles_ok_stop.
  - apply handles_ok_sendKeyEvent.
  - done.
  - apply handles_ok_cleanup.
Qed.

Lemma reachable_handles_ok w : reachable w → handles_ok w.
Proof.
  intros (present & container & ops & ->).
  induction ops as [|op ops IH] using rev_ind.
  - apply handles_ok_init.
  - unfold run_ops. rewrite foldl_snoc. by apply handles_ok_run_op.
Qed.
End hook_handles.

(** ** The hook against its specification *)

Section hook_sequences.
Import Hook.

Lemma initialize_seq_ready answers w :
  isReady w = true →
  initialize_seq answers w = (replicate (length answers) (Fulfilled true), w).
Proof.
  intros Hready. induction answers as [|[so io] answers IH]; [done|].
  simpl. unfold call_initialize, initialize. simpl. rewrite Hready.
  by rewrite IH.
Qed.

End hook_sequences.

(** C6.  The guard [if (isReady) return true] reads the [isReady] of the
    render that created the callback, not the hook's.  The [initialize] of
    the first render, called once more after its own successful call, does
    not return at once although the hook is ready: it finds the entry
    point, skips the script, and calls the engine's setup a second time. *)
Theorem initialize_stale_callback_runs_setup_twice :
  ∃ w1 w2,
    Hook.initialize (Hook.render (Hook.init_world false None))
      (Hook.ScriptLoaded true) (Hook.Fulfilled ()) (Hook.init_world false None)
    = (Hook.Fulfilled true, w1) ∧
    Hook.initialize (Hook.render (Hook.init_world false None))
      Hook.ScriptSilent (Hook.Fulfilled ()) w1
    = (Hook.Fulfilled true, w2) ∧
    Hook.isReady w1 = true ∧
    Hook.trace w1 = [ Hook.AppendScript Hook.CHEERPJ_CDN;
                      Hook.CheerpjInit 8 "none" "java" ] ∧
    Hook.trace w2 = [ Hook.AppendScript Hook.CHEERPJ_CDN;
                      Hook.CheerpjInit 8 "none" "java";
                      Hook.CheerpjInit 8 "none" "java" ].
Proof.
  do 2 eexists. split; [reflexivity|]. split; [reflexivity|].
  split; [reflexivity|]. split; reflexivity.
Qed.

(** What the two guards do achieve.  A callback whose render has [isReady]
    true returns [true] at once and leaves the state and the history of
    calls as they are; so, after a call that succeeded, does every later
    call made through the callback of the latest render.  A run of such
    calls whose first one succeeds calls the engine's setup exactly once and
    injects the script exactly once, or not at all when the entry point was
    already there; and no call, stale or not, injects the script when the
    entry point exists. *)
Lemma initialize_idempotent :
  (∀ c so io w,
     Hook.r_isReady c = true →
     Hook.initialize c so io w = (Hook.Fulfilled true, w)) ∧
  (∀ so io w w',
     Hook.call_initialize so io w = (Hook.Fulfilled true, w') →
     Hook.isReady w' = true ∧
     ∀ so' io', Hook.call_initialize so' io' w' = (Hook.Fulfilled true, w')) ∧
  (∀ so io answers w w',
     Hook.isReady w = false →
     Hook.call_initialize so io w = (Hook.Fulfilled true, w') →
     Hook.initialize_seq ((so, io) :: answers) w
       = (replicate (S (length answers)) (Hook.Fulfilled true), w') ∧
     ∃ new,
       Hook.trace w' = Hook.trace w ++ new ∧
       length (filter Hook.is_init_call new) = 1 ∧
       length (filter Hook.is_script_load new)
         = (if Hook.cheerpjInit_present w then 0 else 1)) ∧
  (∀ c so io w,
     Hook.cheerpjInit_present w = true →
     ∃ new,
       Hook.trace (Hook.initialize c so io w).2 = Hook.trace w ++ new ∧
       filter Hook.is_script_load new = []).
Proof.
  split; [|split; [|split]].
  - intros c so io w Hc. unfold Hook.initialize. by rewrite Hc.
  - intros so io w w' Hcall.
    assert (Hook.isReady w' = true) as Hready.
    { unfold Hook.call_initialize in Hcall.
      destruct (Hook.isReady w) eqn:Hr.
      - unfold Hook.initialize in Hcall. simpl in Hcall. rewrite Hr in Hcall.
        by injection Hcall as <-.
      - by apply initialize_success in Hcall as (_ & ? & _). }
    split; [done|]. intros so' io'.
    unfold Hook.call_initialize, Hook.initialize. simpl. by rewrite Hready.
  - intros so io answers w w' Hr Hcall.
    pose proof Hcall as Hfirst. unfold Hook.call_initialize in Hfirst.
    apply initialize_success in Hfirst as (Htr & Hready & _); [|done].
    split.
    + simpl. rewrite Hcall, initialize_seq_ready by done. done.
    + eexists. split; [exact Htr|].
      by destruct (Hook.cheerpjInit_present w).
  - intros c so io w Hp.
    destruct (initialize_frame c so io w) as (_ & new & Htr & _ & Hnew).
    exists new. auto.
Qed.

(** In a page without the engine, a first call loads the script and sets
    the engine up; the two calls after it do nothing. *)
Lemma initialize_idempotent_witness :
  ∃ w',
    Hook.initialize_seq
      [ (Hook.ScriptLoaded true, Hook.Fulfilled ());
        (Hook.ScriptFailed, Hook.Rejected OtherValue);
        (Hook.ScriptSilent, Hook.Pending) ]
      (Hook.init_world false None)
    = ([Hook.Fulfilled true; Hook.Fulfilled true; Hook.Fulfilled true], w') ∧
    Hook.trace w' = [ Hook.AppendScript Hook.CHEERPJ_CDN;
                      Hook.CheerpjInit 8 "none" "java" ].
Proof.
  destruct initialize_idempotent as (_ & _ & Hseq & _).
  edestruct (Hseq (Hook.ScriptLoaded true) (Hook.Fulfilled ())
               [ (Hook.ScriptFailed, Hook.Rejected OtherValue);
                 (Hook.ScriptSilent, Hook.Pending) ]
               (Hook.init_world false None)) as [Hrun _];
    [reflexivity | reflexivity |].
  eexists. split; [exact Hrun | reflexivity].
Defined.

(** C7.  In every state the hook can reach by any sequence of its
    operations, no moment of the history had two live object URLs; from such
    a state the run of [loadJAR] first revokes the URL it holds and only then
    creates the new one, and [stop] revokes the held URL, clears the ref,
    leaves no live URL and sets the status to idle. *)
Theorem one_live_handle :
  (∀ w p, reachable w → p `prefix_of` Hook.trace w →
          size (Hook.live_after p) ≤ 1) ∧
  (∀ w lo jarBlob className screenWidth screenHeight,
     reachable w →
     ∃ url rest,
       Hook.trace (Hook.loadJAR_try lo jarBlob className screenWidth screenHeight w).2
         = Hook.trace w ++ release_of w
             ++ Hook.CreateObjectURL jarBlob url :: rest ∧
       Forall (λ e, handle_neutral e = true) rest) ∧
  (∀ w, reachable w →
        Hook.trace (Hook.stop w) = Hook.trace w ++ release_of w ∧
        Hook.jarUrlRef (Hook.stop w) = None ∧
        Hook.live_after (Hook.trace (Hook.stop w)) = ∅ ∧
        Hook.status (Hook.stop w) = Hook.Idle).
Proof.
  split; [|split].
  - intros w p Hw Hp. by apply (reachable_handles_ok w Hw).
  - intros w lo b cls sw sh Hw.
    destruct (reachable_handles_ok w Hw) as (_ & _ & Hne).
    destruct (loadJAR_try_handles lo b cls sw sh w Hne) as (_ & rest & ? & ?).
    eauto.
  - intros w Hw. pose proof (reachable_handles_ok w Hw) as Hok.
    destruct Hok as (Hone & Hsub & Hne).
    destruct (stop_handles w Hne) as (Htr & Href & Hst & _).
    destruct (release_live w (conj Hone (conj Hsub Hne))) as [Hlive _].
    by rewrite Htr, Hlive.
Qed.

(** Two loads and a stop: the first URL is revoked before the second is
    created, and the stop leaves none. *)
Lemma one_live_handle_witness :
  Hook.trace (Hook.run_ops (Hook.init_world true (Some 7)) two_loads_and_stop)
  = [ Hook.CheerpjInit 8 "none" "java";
      Hook.CreateObjectURL "jar-1" "blob:0";
      Hook.CreateDisplay (JS.Num 240) (JS.Num 320) 7;
      Hook.RunMain "a.Main" "/app/blob:0:lib/";
      Hook.RevokeObjectURL "blob:0";
      Hook.CreateObjectURL "jar-2" "blob:1";
      Hook.CreateDisplay (JS.Num 176) (JS.Num 220) 7;
      Hook.RunMain "b.Main" "/app/blob:1:lib/";
      Hook.RevokeObjectURL "blob:1" ] ∧
  size (Hook.live_after
          [ Hook.CheerpjInit 8 "none" "java";
            Hook.CreateObjectURL "jar-1" "blob:0";
            Hook.CreateDisplay (JS.Num 240) (JS.Num 320) 7;
            Hook.RunMain "a.Main" "/app/blob:0:lib/";
            Hook.RevokeObjectURL "blob:0";
            Hook.CreateObjectURL "jar-2" "blob:1" ]) ≤ 1.
Proof.
  split; [vm_compute; reflexivity|].
  refine (proj1 one_live_handle
            (Hook.run_ops (Hook.init_world true (Some 7)) two_loads_and_stop)
            _ _ _).
  - by exists true, (Some 7), two_loads_and_stop.
  - eexists [_; _; _]. vm_compute. reflexivity.
Defined.

(** C8.  A [loadJAR] whose render was not ready runs [initialize] first: if
    that returns [false] the call rejects with [CheerpJ not initialized] in
    the state [initialize] left (status [error], a message set) and nothing
    of the run is started; if it returns [true] the run starts from the state
    it left; if it never settles, neither does the call.  A failure inside
    the run -- the display cannot be created, or the engine rejects the
    start -- rejects with that same error, with the status [error] and the
    error message set from it. *)
Theorem loadJAR_initializes_first :
  (∀ c so io lo jarBlob className screenWidth screenHeight w wi,
     Hook.r_isReady c = false →
     Hook.initialize c so io w = (Hook.Fulfilled false, wi) →
     Hook.loadJAR c so io lo jarBlob className screenWidth screenHeight w
       = (Hook.Rejected (ErrorObj "CheerpJ not initialized"), wi) ∧
     Hook.status wi = Hook.Error ∧ is_Some (Hook.error wi)) ∧
  (∀ c so io lo jarBlob className screenWidth screenHeight w wi,
     Hook.r_isReady c = false →
     Hook.initialize c so io w = (Hook.Fulfilled true, wi) →
     Hook.loadJAR c so io lo jarBlob className screenWidth screenHeight w
       = Hook.loadJAR_try lo jarBlob className screenWidth screenHeight wi) ∧
  (∀ c so io lo jarBlob className screenWidth screenHeight w wi,
     Hook.r_isReady c = false →
     Hook.initialize c so io w = (Hook.Pending, wi) →
     Hook.loadJAR c so io lo jarBlob className screenWidth screenHeight w
       = (Hook.Pending, wi)) ∧
  (∀ lo jarBlob className screenWidth screenHeight w parent err,
     Hook.containerRef w = Some parent →
     Hook.display_result lo = inl err →
     (Hook.loadJAR_try lo jarBlob className screenWidth screenHeight w).1
       = Hook.Rejected err) ∧
  (∀ lo jarBlob className screenWidth screenHeight w err,
     Hook.containerRef w = None ∨
       (∃ display, Hook.display_result lo = inr display) →
     Hook.run_result lo = Hook.Rejected err →
     (Hook.loadJAR_try lo jarBlob className screenWidth screenHeight w).1
       = Hook.Rejected err) ∧
  (∀ lo jarBlob className screenWidth screenHeight w err w',
     Hook.loadJAR_try lo jarBlob className screenWidth screenHeight w
       = (Hook.Rejected err, w') →
     Hook.status w' = Hook.Error ∧
     Hook.error w' = Some (Hook.message_of err "Failed to load JAR")) ∧
  (∀ c so io lo jarBlob className screenWidth screenHeight w err w',
     Hook.loadJAR c so io lo jarBlob className screenWidth screenHeight w
       = (Hook.Rejected err, w') →
     Hook.status w' = Hook.Error ∧ is_Some (Hook.error w')).
Proof.
  assert (∀ lo b cls sw sh w err w',
            Hook.loadJAR_try lo b cls sw sh w = (Hook.Rejected err, w') →
            Hook.status w' = Hook.Error ∧
            Hook.error w' = Some (Hook.message_of err "Failed to load JAR")) as Htry.
  { intros lo b cls sw sh w err w'.
    unfold Hook.loadJAR_try, Hook.run_main, Hook.loadJAR_catch,
      Hook.createObjectURL.
    destruct lo as [[e|d] [[]|e'|]]; simpl;
      destruct (Hook.containerRef (Hook.revoke_current (Hook.setStatus Hook.Loading w)));
      simpl; intros [= <- <-]; done. }
  split; [|split; [|split; [|split; [|split; [|split]]]]].
  - intros c so io lo b cls sw sh w wi Hc Hinit.
    unfold Hook.loadJAR. rewrite Hc, Hinit. simpl.
    split; [done|]. by apply (initialize_failure c so io w).
  - intros c so io lo b cls sw sh w wi Hc Hinit.
    unfold Hook.loadJAR. by rewrite Hc, Hinit.
  - intros c so io lo b cls sw sh w wi Hc Hinit.
    unfold Hook.loadJAR. by rewrite Hc, Hinit.
  - intros lo b cls sw sh w parent err Hparent Hdisplay.
    unfold Hook.loadJAR_try, Hook.loadJAR_catch, Hook.createObjectURL,
      Hook.revoke_current.
    destruct (JS.truthy _); simpl; by rewrite Hparent, Hdisplay.
  - intros lo b cls sw sh w err Hcases Hrun.
    unfold Hook.loadJAR_try, Hook.run_main, Hook.loadJAR_catch,
      Hook.createObjectURL, Hook.revoke_current.
    destruct Hcases as [Hnone|Hd].
    + destruct (JS.truthy _); simpl; by rewrite Hnone, Hrun.
    + destruct Hd as [d Hd]. rewrite Hd.
      destruct (JS.truthy _), (Hook.containerRef w) as [parent|] eqn:Hp;
        simpl; by rewrite Hp, Hrun.
  - exact Htry.
  - intros c so io lo b cls sw sh w err w'. unfold Hook.loadJAR.
    destruct (negb (Hook.r_isReady c)).
    + destruct (Hook.initialize c so io w) as [[[|]|e|] wi] eqn:Hinit.
      * intros H. apply Htry in H as [-> ->]. eauto.
      * intros [= <- <-]. by apply (initialize_failure c so io w).
      * by apply initialize_never_rejects in Hinit.
      * done.
    + intros H. apply Htry in H as [-> ->]. eauto.
Qed.

(** The script cannot be loaded: the run is not started, and the call
    rejects in the state [initialize] left. *)
Lemma loadJAR_initializes_first_witness :
  ∃ wi,
    Hook.loadJAR (Hook.render (Hook.init_world false (Some 7)))
      Hook.ScriptFailed Hook.Pending
      {| Hook.display_result := inr 8; Hook.run_result := Hook.Pending |}
      "jar" "a.Main" (JS.Num 240) (JS.Num 320) (Hook.init_world false (Some 7))
    = (Hook.Rejected (ErrorObj "CheerpJ not initialized"), wi) ∧
    Hook.status wi = Hook.Error ∧
    Hook.error wi = Some "Failed to load CheerpJ" ∧
    Hook.trace wi = [Hook.AppendScript Hook.CHEERPJ_CDN].
Proof.
  destruct loadJAR_initializes_first as (Hfail & _).
  edestruct (Hfail (Hook.render (Hook.init_world false (Some 7)))
               Hook.ScriptFailed Hook.Pending
               {| Hook.display_result := inr 8; Hook.run_result := Hook.Pending |}
               "jar" "a.Main" (JS.Num 240) (JS.Num 320)
               (Hook.init_world false (Some 7))) as (Hrej & Hst & _);
    [reflexivity | reflexivity |].
  eexists. split; [exact Hrej|]. split; [exact Hst|]. split; reflexivity.
Defined.

(** When the render is running and has a display, the event is delivered
    to that display. *)
Lemma sendKeyEvent_delivers c keyCode pressed w display :
  Hook.r_status c = Hook.Running →
  Hook.r_displayElement c = Some display →
  Hook.trace (Hook.sendKeyEvent c keyCode pressed w)
    = Hook.trace w
        ++ [Hook.DispatchEvent display (if pressed then "keydown" else "keyup")
              (JS.ToUint32 keyCode)].
Proof.
  intros Hs Hd. unfold Hook.sendKeyEvent. rewrite Hs, Hd.
  by rewrite bool_decide_false by naive_solver.
Qed.

(** What the guard of [sendKeyEvent] does achieve: a callback does nothing
    when the status and the display element of the render that created it
    are not [running] or missing, and the callback of the latest render
    does nothing when those of the hook are. *)
Lemma sendKeyEvent_noop :
  (∀ c keyCode pressed w,
     Hook.r_status c ≠ Hook.Running ∨ Hook.r_displayElement c = None →
     Hook.sendKeyEvent c keyCode pressed w = w) ∧
  (∀ keyCode pressed w,
     Hook.status w ≠ Hook.Running ∨ Hook.displayElement w = None →
     Hook.sendKeyEvent (Hook.render w) keyCode pressed w = w).
Proof.
  assert (∀ c keyCode pressed w,
            Hook.r_status c ≠ Hook.Running ∨ Hook.r_displayElement c = None →
            Hook.sendKeyEvent c keyCode pressed w = w) as H.
  { intros c k p w [Hs|Hd]; unfold Hook.sendKeyEvent.
    - by rewrite bool_decide_true by done.
    - rewrite Hd. by destruct (bool_decide _). }
  split; [exact H|]. intros k p w Hw. by apply H.
Qed.

(** A loaded game that was stopped: the fire key goes nowhere. *)
Lemma sendKeyEvent_noop_witness :
  Hook.sendKeyEvent
    {| Hook.r_status := Hook.Idle; Hook.r_isReady := true;
       Hook.r_displayElement := Some 8 |}
    (-5) true (Hook.init_world true (Some 7))
  = Hook.init_world true (Some 7).
Proof.
  refine (proj1 sendKeyEvent_noop _ _ _ _ _). left. discriminate.
Defined.

(** C9.  The guard of [sendKeyEvent] reads the status and the display
    element of the render that created the callback, not the hook's.  After
    a load and a [stop], the hook is idle and has no display element; the
    [sendKeyEvent] of the render before the [stop], called then, still
    builds a [keydown] event and dispatches it to the display of the
    stopped run. *)
Theorem sendKeyEvent_stale_callback_dispatches :
  Hook.r_status (Hook.render (Hook.run_ops (Hook.init_world true (Some 7))
                                one_load)) = Hook.Running ∧
  Hook.status (Hook.stop (Hook.run_ops (Hook.init_world true (Some 7))
                            one_load)) = Hook.Idle ∧
  Hook.displayElement (Hook.stop (Hook.run_ops (Hook.init_world true (Some 7))
                                    one_load)) = None ∧
  Hook.trace
    (Hook.sendKeyEvent
       (Hook.render (Hook.run_ops (Hook.init_world true (Some 7)) one_load))
       53 true
       (Hook.stop (Hook.run_ops (Hook.init_world true (Some 7)) one_load)))
  = Hook.trace
      (Hook.stop (Hook.run_ops (Hook.init_world true (Some 7)) one_load))
    ++ [Hook.DispatchEvent 8 "keydown" 53] ∧
  Hook.sendKeyEvent
    (Hook.render (Hook.run_ops (Hook.init_world true (Some 7)) one_load))
    53 true
    (Hook.stop (Hook.run_ops (Hook.init_world true (Some 7)) one_load))
  ≠ Hook.stop (Hook.run_ops (Hook.init_world true (Some 7)) one_load).
Proof.
  assert (Hook.trace
            (Hook.sendKeyEvent
               (Hook.render
                  (Hook.run_ops (Hook.init_world true (Some 7)) one_load))
               53 true
               (Hook.stop
                  (Hook.run_ops (Hook.init_world true (Some 7)) one_load)))
          = Hook.trace
              (Hook.stop
                 (Hook.run_ops (Hook.init_world true (Some 7)) one_load))
            ++ [Hook.DispatchEvent 8 "keydown" 53]) as Htrace
    by (vm_compute; reflexivity).
  split; [vm_compute; reflexivity|]. split; [vm_compute; reflexivity|].
  split; [vm_compute; reflexivity|]. split; [exact Htrace|].
  intros Heq. rewrite Heq in Htrace.
  apply (f_equal length) in Htrace. rewrite length_app in Htrace.
  simpl in Htrace. lia.
Qed.

(** * More properties of the code *)

(** ** [parseManifest]: which keys are bound, and to what *)

Section manifest_keys.
Implicit Types (st : ParseState) (m : gmap string string).
Implicit Types (line k v : string) (lines : list string).

Lemma save_entry_is_Some st k :
  is_Some (save_entry st !! k) ↔
    (currentKey st = k ∧ storable k) ∨ is_Some (manifest st !! k).
Proof.
  rewrite save_entry_lookup. unfold storable.
  case_decide as Hd; split; intros Hx; naive_solver.
Qed.

Lemma parse_line_keys st line k :
  is_Some (save_entry (parse_line st line) !! k) ↔
    is_Some (save_entry st !! k) ∨ (storable k ∧ header_key line = Some k).
Proof.
  destruct (header_key line) as [k'|] eqn:Hh.
  - rewrite (parse_line_header _ _ _ Hh), !save_entry_is_Some. simpl.
    rewrite save_entry_is_Some. naive_solver.
  - rewrite (parse_line_continuation _ _ Hh), !save_entry_is_Some. simpl.
    naive_solver.
Qed.

Lemma parse_lines_keys_from st lines k :
  is_Some (save_entry (foldl parse_line st lines) !! k) ↔
    is_Some (save_entry st !! k) ∨
    (storable k ∧ ∃ line, line ∈ lines ∧ header_key line = Some k).
Proof.
  revert st. induction lines as [|l lines IH]; intros st; simpl.
  - split; [by left|]. intros [?|(_ & line & Hin & _)]; [done|].
    by apply elem_of_nil in Hin.
  - rewrite IH, parse_line_keys. setoid_rewrite elem_of_cons. naive_solver.
Qed.

Lemma header_key_trimmed line k : header_key line = Some k → trimmed k.
Proof.
  unfold header_key. destruct (JS.startsWith " " line); [done|].
  destruct (JS.indexOf ":" line); [|done]. intros [= <-]. apply trim_trimmed.
Qed.

(** With no key pending, the text gathered so far is never used. *)
Lemma pending_text_unused m v v' lines :
  save_entry (foldl parse_line
                {| manifest := m; currentKey := ""; currentValue := v |} lines)
  = save_entry (foldl parse_line
                {| manifest := m; currentKey := ""; currentValue := v' |} lines).
Proof.
  revert v v'. induction lines as [|l lines IH]; intros v v'; [done|]. simpl.
  destruct (header_key l) as [k|] eqn:Hh.
  - by rewrite !(parse_line_header _ _ _ Hh).
  - rewrite !(parse_line_continuation _ _ Hh). simpl. apply IH.
Qed.

(** A list of lines is a run of lines that open no entry, followed by
    nothing or by a line that opens one. *)
Lemma leading_lines_split lines :
  ∃ body post,
    lines = body ++ post ∧ Forall (λ l, header_key l = None) body ∧
    (head post ≫= header_key ≠ None ∨ post = []).
Proof.
  induction lines as [|l lines (body & post & -> & Hbody & Hpost)].
  - exists [], []. by repeat split; [constructor | right].
  - destruct (header_key l) as [k|] eqn:Hh.
    + exists [], (l :: body ++ post). repeat split; [constructor|].
      left. simpl. by rewrite Hh.
    + exists (l :: body), post. repeat split; [by constructor | done].
Qed.

End manifest_keys.

(** X1.  The keys of the mapping [parseManifest] returns are exactly the keys
    of the lines that open an entry (the trimmed text before the first colon
    of a line that does not start with a space), the empty key and
    [__proto__] left out; each of them is trimmed. *)
Theorem parseManifest_keys (content k : string) :
  (is_Some (parseManifest content !! k) ↔
     storable k ∧
     ∃ line, line ∈ JS.split_lines content ∧ header_key line = Some k) ∧
  (is_Some (parseManifest content !! k) → trimmed k).
Proof.
  assert (is_Some (parseManifest content !! k) ↔
            storable k ∧
            ∃ line, line ∈ JS.split_lines content ∧ header_key line = Some k)
    as Hiff.
  { unfold parseManifest, parse_lines. rewrite parse_lines_keys_from.
    rewrite save_entry_is_Some. simpl. rewrite lookup_empty.
    unfold storable. split; [|naive_solver].
    intros [[[<- [? _]]|[? [=]]]|?]; done. }
  split; [done|]. intros (_ & line & _ & Hh)%Hiff.
  by apply (header_key_trimmed line).
Qed.

(** X2.  Whatever stands before the first line that opens an entry --
    continuation lines, blank lines, lines without a colon -- is dropped:
    the text parses as the lines from that first opening line on. *)
Theorem parseManifest_leading_lines_dropped (content : string)
    (junk rest : list string) :
  JS.split_lines content = junk ++ rest →
  Forall (λ l, header_key l = None) junk →
  parseManifest content = parse_lines rest.
Proof.
  intros Hsplit Hjunk. unfold parseManifest, parse_lines.
  rewrite Hsplit, foldl_app, (parse_continuations _ junk) by done.
  apply pending_text_unused.
Qed.

Lemma parseManifest_leading_lines_dropped_witness :
  parseManifest (" stray" +:+ LF +:+ "" +:+ LF +:+ "no colon here" +:+ CRLF +:+
                 "MIDlet-Name: Snake")
  = parse_lines ["MIDlet-Name: Snake"].
Proof.
  apply (parseManifest_leading_lines_dropped _
           [" stray"; ""; "no colon here"] ["MIDlet-Name: Snake"]).
  - vm_compute. reflexivity.
  - repeat constructor.
Defined.

(** X3.  A key declared again takes its value from its last declaration
    alone: the lines before the last line that opens the key have no
    influence on the value bound to it. *)
Theorem parseManifest_last_declaration_wins (pre post : list string)
    (h k : string) :
  header_key h = Some k → storable k →
  Forall (λ l, header_key l ≠ Some k) post →
  parse_lines (pre ++ h :: post) !! k = parse_lines (h :: post) !! k ∧
  is_Some (parse_lines (pre ++ h :: post) !! k).
Proof.
  intros Hh [Hk Hp] Hpost.
  destruct (leading_lines_split post) as (body & rest & -> & Hbody & Hrest).
  apply Forall_app in Hpost as [_ Hpost].
  rewrite (parse_lines_entry pre h body rest k) by done.
  pose proof (parse_lines_entry [] h body rest k Hh Hk Hp Hbody Hrest Hpost)
    as Hlast.
  simpl in Hlast. rewrite Hlast. split; [done | by eexists].
Qed.

Lemma parseManifest_last_declaration_wins_witness :
  parse_lines ["MIDlet-Name: Old"; " name"; "MIDlet-Name: New"; "MIDlet-1: a"]
    !! "MIDlet-Name"
  = parse_lines ["MIDlet-Name: New"; "MIDlet-1: a"] !! "MIDlet-Name".
Proof.
  refine (proj1 (parseManifest_last_declaration_wins
                   ["MIDlet-Name: Old"; " name"] ["MIDlet-1: a"]
                   "MIDlet-Name: New" "MIDlet-Name" _ _ _)).
  - vm_compute. reflexivity.
  - split; discriminate.
  - repeat constructor. vm_compute. discriminate.
Defined.

(** ** [parseMIDletEntries]: the loop and the entries it builds *)

Section midlet_more.
Implicit Types (m : gmap string string) (s t : string) (c : ascii).

Lemma indexOf_cons_None c a s :
  JS.indexOf c (String a s) = None ↔ Ascii.eqb a c = false ∧ JS.indexOf c s = None.
Proof.
  simpl. destruct (Ascii.eqb a c); [naive_solver|].
  destruct (JS.indexOf c s); naive_solver.
Qed.

(** A string without the separator is one piece. *)
Lemma split_one c s : JS.indexOf c s = None → JS.split c s = [s].
Proof.
  induction s as [|a s IH]; [done|].
  intros [Ha Hs]%indexOf_cons_None. simpl. by rewrite Ha, IH.
Qed.

(** The first piece ends at the first separator. *)
Lemma split_first c s t :
  JS.indexOf c s = None →
  JS.split c (s +:+ String c t) = s :: JS.split c t.
Proof.
  induction s as [|a s IH]; intros Hs.
  - rewrite str_app_nil_l. simpl. by rewrite Ascii.eqb_refl.
  - apply indexOf_cons_None in Hs as [Ha Hs].
    rewrite str_app_cons. simpl. by rewrite Ha, IH.
Qed.

Lemma split_nonempty c s : JS.split c s ≠ [].
Proof.
  induction s as [|a s IH]; [done|]. simpl.
  destruct (Ascii.eqb a c); [done|]. by destruct (JS.split c s).
Qed.

Lemma or_default_nonempty (o : option string) d :
  d ≠ "" → JS.or_default o d ≠ "".
Proof.
  intros Hd. destruct o as [s|]; [|done]. simpl.
  destruct (String.eqb_spec s ""); simpl; done.
Qed.

Lemma or_default_empty (o : option string) :
  JS.or_default o "" = default "" o.
Proof.
  destruct o as [s|]; [|done]. simpl.
  destruct (String.eqb_spec s ""); simpl; done.
Qed.

Lemma or_null_Some (o : option string) s :
  JS.or_null o = Some s → o = Some s ∧ s ≠ "".
Proof.
  unfold JS.or_null. destruct (JS.truthy o) eqn:Ht; [|done].
  intros ->. by apply truthy_Some in Ht.
Qed.

(** Prepending digits does not change how a string ends. *)
Lemma ends_white_cons a s : s ≠ "" → ends_white (String a s) = ends_white s.
Proof. by destruct s. Qed.

Lemma ends_white_app s t : t ≠ "" → ends_white (s +:+ t) = ends_white t.
Proof.
  intros Ht. induction s as [|a s IH]; [done|].
  rewrite str_app_cons, ends_white_cons; [done|]. by destruct s, t.
Qed.

Lemma pretty_N_char_not_white (d : N) : JS.is_white (pretty_N_char d) = false.
Proof. unfold pretty_N_char. by repeat case_match. Qed.

Lemma pretty_N_go_shape (x : N) s :
  (0 < x)%N →
  ∃ d rest, pretty_N_go x s = String (pretty_N_char d) rest ∧ (d < 10)%N ∧
            (s ≠ "" → rest ≠ "" ∧ ends_white rest = ends_white s) ∧
            (s = "" → ends_white (String (pretty_N_char d) rest) = false).
Proof.
  revert s. induction (N.lt_wf_0 x) as [x _ IH]. intros s Hx.
  rewrite pretty_N_go_step by done.
  destruct (decide (x `div` 10 = 0)%N) as [Hz|Hnz].
  - rewrite Hz, pretty_N_go_0. exists (x `mod` 10)%N, s.
    split; [done|]. split; [by apply N.mod_lt|]. split; [done|].
    intros ->. simpl. apply pretty_N_char_not_white.
  - destruct (IH (x `div` 10)%N ltac:(by apply N.div_lt)
                (String (pretty_N_char (x `mod` 10)) s)
                ltac:(by apply N.neq_0_lt_0))
      as (d & rest & -> & Hd & Hne & _).
    destruct Hne as [Hrest Hends]; [done|].
    exists d, rest. split; [done|]. split; [done|]. split.
    + intros Hs. split; [done|]. by rewrite Hends, ends_white_cons.
    + intros ->. rewrite ends_white_cons, Hends by done. simpl.
      apply pretty_N_char_not_white.
Qed.

(** A decimal numeral starts with a digit and does not end in white
    space. *)
Lemma pretty_N_shape (x : N) :
  ∃ d rest, pretty x = String (pretty_N_char d) rest ∧ (d < 10)%N ∧
            ends_white (pretty x) = false.
Proof.
  unfold pretty, pretty_N.
  destruct (decide (x = 0)%N) as [Hz|Hne].
  - by exists 0%N, "".
  - destruct (pretty_N_go_shape x "") as (d & rest & Heq & Hd & _ & He);
      [by apply N.neq_0_lt_0|].
    exists d, rest. rewrite Heq. split; [done|]. split; [done|]. by apply He.
Qed.

Lemma pretty_nat_shape (n : nat) :
  ∃ d rest, pretty n = String (pretty_N_char d) rest ∧ (d < 10)%N ∧
            ends_white (pretty n) = false.
Proof. apply (pretty_N_shape (N.of_nat n)). Qed.

Lemma midlet_of_fields i entry :
  MIDlet.name (midlet_of i entry) ≠ "" ∧
  trimmed (MIDlet.name (midlet_of i entry)) ∧
  MIDlet.icon (midlet_of i entry) ≠ Some "" ∧
  (∀ ic, MIDlet.icon (midlet_of i entry) = Some ic → trimmed ic) ∧
  trimmed (MIDlet.className (midlet_of i entry)).
Proof.
  unfold midlet_of. simpl.
  assert (∀ k p, (JS.trim <$> JS.split "," entry) !! k = Some p → trimmed p)
    as Hparts.
  { intros k p (x & -> & _)%list_lookup_fmap_Some. apply trim_trimmed. }
  split; [by apply or_default_nonempty|]. split.
  - destruct ((JS.trim <$> JS.split "," entry) !! 0) as [p|] eqn:Hp; simpl.
    + destruct (String.eqb_spec p ""); simpl; [|by apply (Hparts 0)].
      split; [done|]. rewrite ends_white_app.
      * by destruct (pretty_nat_shape i) as (_ & _ & _ & _ & ?).
      * by destruct (pretty_nat_shape i) as (? & ? & -> & _).
    + split; [done|]. rewrite ends_white_app.
      * by destruct (pretty_nat_shape i) as (_ & _ & _ & _ & ?).
      * by destruct (pretty_nat_shape i) as (? & ? & -> & _).
  - split; [by intros [_ ?]%or_null_Some|]. split.
    + intros ic [Hic _]%or_null_Some. by apply (Hparts 1).
    + rewrite or_default_empty.
      destruct ((JS.trim <$> JS.split "," entry) !! 2) as [p|] eqn:Hp;
        [by apply (Hparts 2) | done].
Qed.

End midlet_more.

(** X4.  What [parseMIDletEntries] returns, for every mapping: with [n] the
    length of the list, the keys [MIDlet-1] .. [MIDlet-n] are bound to
    non-empty strings, [MIDlet-(n+1)] is missing or empty, the [i]-th entry
    is the one built from [MIDlet-i], and [n] is at most the number of keys
    of the mapping. *)
Theorem parseMIDletEntries_exact (m : gmap string string) :
  parseMIDletEntries m
    = midlet_at m <$> seq 1 (length (parseMIDletEntries m)) ∧
  (∀ i, 1 ≤ i ≤ length (parseMIDletEntries m) →
        ∃ v, m !! midlet_key i = Some v ∧ v ≠ "") ∧
  (m !! midlet_key (S (length (parseMIDletEntries m))) = None ∨
   m !! midlet_key (S (length (parseMIDletEntries m))) = Some "") ∧
  length (parseMIDletEntries m) ≤ size m.
Proof.
  destruct (first_falsy_index m) as (n & Hin & Hout).
  pose proof (truthy_prefix_size m n Hin) as Hn.
  pose proof (parseMIDletEntries_run m n Hin Hout) as Hrun.
  assert (length (parseMIDletEntries m) = n) as Hlen
    by by rewrite Hrun, length_fmap, length_seq.
  rewrite Hlen. split; [done|]. split; [|split; [by apply truthy_false | done]].
  intros i Hi. by apply truthy_spec, Hin.
Qed.

(** X5.  The [while] loop of [parseMIDletEntries] terminates: once allowed
    more tests than the mapping has keys it leaves by its own test, after
    [n + 1] tests for the [n] entries it returns, and a larger allowance
    changes nothing. *)
Theorem midlet_loop_terminates (m : gmap string string) (fuel : nat) :
  size m < fuel →
  ∃ n, n ≤ size m ∧
       midlet_loop fuel m 1 [] = Some (midlet_at m <$> seq 1 n) ∧
       midlet_loop (S n) m 1 [] = Some (midlet_at m <$> seq 1 n) ∧
       midlet_loop n m 1 [] = None ∧
       parseMIDletEntries m = midlet_at m <$> seq 1 n.
Proof.
  intros Hfuel. destruct (first_falsy_index m) as (n & Hin & Hout).
  pose proof (truthy_prefix_size m n Hin) as Hn.
  assert (∀ j, 1 ≤ j < 1 + n → JS.truthy (m !! midlet_key j) = true) as Hin'
    by (intros j Hj; apply Hin; lia).
  exists n. split; [done|].
  rewrite !(midlet_loop_run _ m 1 n []) by (done || lia).
  split; [done|]. split; [done|]. split; [|by apply parseMIDletEntries_run].
  clear Hout Hfuel Hn Hin.
  assert (∀ k i acc,
            (∀ j, i ≤ j < i + k → JS.truthy (m !! midlet_key j) = true) →
            midlet_loop k m i acc = None) as Hshort.
  { induction k as [|k IH]; intros i acc Hk; [done|]. simpl.
    rewrite Hk by lia. apply IH. intros j Hj. apply Hk. lia. }
  by apply Hshort.
Qed.

Lemma midlet_loop_terminates_witness :
  ∃ n, n ≤ 3 ∧
       midlet_loop 7
         (parseManifest ("MIDlet-1: A,,a.Main" +:+ LF +:+ "MIDlet-2: B,,b.Main"
                         +:+ LF +:+ "MIDlet-Name: Two"))
         1 []
       = Some (midlet_at
                 (parseManifest ("MIDlet-1: A,,a.Main" +:+ LF +:+
                                 "MIDlet-2: B,,b.Main" +:+ LF +:+
                                 "MIDlet-Name: Two")) <$> seq 1 n).
Proof.
  destruct (midlet_loop_terminates
              (parseManifest ("MIDlet-1: A,,a.Main" +:+ LF +:+
                              "MIDlet-2: B,,b.Main" +:+ LF +:+
                              "MIDlet-Name: Two")) 7)
    as (n & Hn & Hrun & _); [vm_compute; lia|].
  exists n. split; [exact Hn | exact Hrun].
Defined.

(** X6.  No entry returned by [parseMIDletEntries] has an empty name or an
    empty icon path: a missing name is replaced by [MIDlet i] and a missing
    icon by [null]; and every field of every entry is trimmed. *)
Theorem midlet_entries_fields (m : gmap string string) (e : MIDletInfo) :
  e ∈ parseMIDletEntries m →
  MIDlet.name e ≠ "" ∧ trimmed (MIDlet.name e) ∧
  MIDlet.icon e ≠ Some "" ∧ (∀ ic, MIDlet.icon e = Some ic → trimmed ic) ∧
  trimmed (MIDlet.className e).
Proof.
  destruct (first_falsy_index m) as (n & Hin & Hout).
  rewrite (parseMIDletEntries_run m n Hin Hout).
  intros (i & -> & _)%list_elem_of_fmap. apply midlet_of_fields.
Qed.

Lemma midlet_entries_fields_witness :
  MIDlet.name {| MIDlet.name := "MIDlet 1"; MIDlet.icon := None;
                 MIDlet.className := "a.Main" |} ≠ "".
Proof.
  refine (proj1 (midlet_entries_fields
                   (parseManifest "MIDlet-1:  , , a.Main ") _ _)).
  vm_compute. left.
Defined.

(** X7.  The text [name,icon,class] of an entry is read back field by field:
    when the three fields hold no comma, the entry has the trimmed name (or
    [MIDlet i] if that is empty), the trimmed icon (or [null] if that is
    empty) and the trimmed class; anything after a further comma is
    ignored. *)
Theorem midlet_of_fields_read_back (i : nat) (name icon class more : string) :
  JS.indexOf "," name = None → JS.indexOf "," icon = None →
  JS.indexOf "," class = None →
  more = "" ∨ JS.startsWith "," more = true →
  midlet_of i (name +:+ "," +:+ icon +:+ "," +:+ class +:+ more)
  = {| MIDlet.name :=
         if decide (JS.trim name = "") then "MIDlet " +:+ pretty i
         else JS.trim name;
       MIDlet.icon :=
         if decide (JS.trim icon = "") then None else Some (JS.trim icon);
       MIDlet.className := JS.trim class |}.
Proof.
  intros Hn Hi Hc Hmore. unfold midlet_of.
  assert (∃ tail, JS.split "," (class +:+ more) = class :: tail) as [tail Hcl].
  { destruct Hmore as [->|Hm].
    - rewrite str_app_nil_r, split_one by done. by eexists.
    - destruct more as [|a more]; [done|]. simpl in Hm.
      apply Ascii.eqb_eq in Hm as ->. rewrite split_first by done. by eexists. }
  change ("," +:+ icon +:+ "," +:+ class +:+ more)
    with (String "," (icon +:+ String "," (class +:+ more))).
  rewrite split_first, split_first, Hcl by done. simpl.
  f_equal.
  - case_decide as Hd; [by rewrite Hd|].
    by destruct (String.eqb_spec (JS.trim name) "").
  - unfold JS.or_null. simpl. case_decide as Hd; [by rewrite Hd|].
    by destruct (String.eqb_spec (JS.trim icon) "").
  - by destruct (String.eqb_spec (JS.trim class) "").
Qed.

Lemma midlet_of_fields_read_back_witness :
  midlet_of 3 (" Snake " +:+ "," +:+ "" +:+ "," +:+ " game.Snake" +:+ ",x,y")
  = {| MIDlet.name := "Snake"; MIDlet.icon := None;
       MIDlet.className := "game.Snake" |}.
Proof.
  refine (eq_trans (midlet_of_fields_read_back 3 " Snake " "" " game.Snake"
                      ",x,y" _ _ _ _) _).
  - reflexivity.
  - reflexivity.
  - reflexivity.
  - right. reflexivity.
  - vm_compute. reflexivity.
Defined.

(** ** [parseScreenSize]: decimal sizes, sizes that are no numbers *)

Section screen_more.
Implicit Types (m : gmap string string) (s rest : string) (c : ascii).
Local Arguments JS.of_integer : simpl never.

Lemma digit_pretty_N_char (d : N) :
  (d < 10)%N → JS.digit (pretty_N_char d) = Some (Z.of_N d).
Proof.
  intros Hd.
  assert (d = 0 ∨ d = 1 ∨ d = 2 ∨ d = 3 ∨ d = 4 ∨ d = 5 ∨ d = 6 ∨ d = 7 ∨
          d = 8 ∨ d = 9)%N as Hcases by lia.
  repeat (destruct Hcases as [->|Hcases]; [reflexivity|]). by subst.
Qed.

Lemma digits_step (acc : option Z) c s d :
  JS.digit c = Some d →
  JS.digits acc (String c s) = JS.digits (Some (10 * default 0%Z acc + d)%Z) s.
Proof. intros Hd. simpl. by rewrite Hd. Qed.

(** Reading a numeral back: the digits of [x] extend what was read before
    them, and alone they give [x]. *)
Lemma digits_pretty_N_go (x : N) :
  (0 < x)%N →
  ∃ p : Z, ∀ a s,
    JS.digits (Some a) (pretty_N_go x s)
      = JS.digits (Some (a * p + Z.of_N x)%Z) s ∧
    JS.digits None (pretty_N_go x s) = JS.digits (Some (Z.of_N x)) s.
Proof.
  induction (N.lt_wf_0 x) as [x _ IH]. intros Hx.
  pose proof (N.div_mod x 10 ltac:(done)) as Hdm.
  pose proof (N.mod_lt x 10 ltac:(done)) as Hlt.
  pose proof (digit_pretty_N_char _ Hlt) as Hdigit.
  assert (Z.of_N x = 10 * Z.of_N (x `div` 10) + Z.of_N (x `mod` 10))%Z as HZ.
  { rewrite Hdm at 1. by rewrite N2Z.inj_add, N2Z.inj_mul. }
  destruct (decide (x `div` 10 = 0)%N) as [Hz|Hnz].
  - exists 10%Z. intros a s. rewrite pretty_N_go_step, Hz, pretty_N_go_0 by done.
    rewrite !(digits_step _ _ _ _ Hdigit). simpl.
    rewrite Hz in HZ. split; do 2 f_equal; rewrite HZ; ring.
  - destruct (IH (x `div` 10)%N ltac:(by apply N.div_lt)
                ltac:(by apply N.neq_0_lt_0)) as [p Hp].
    exists (10 * p)%Z. intros a s. rewrite pretty_N_go_step by done.
    destruct (Hp a (String (pretty_N_char (x `mod` 10)) s)) as [-> ->].
    rewrite !(digits_step _ _ _ _ Hdigit). simpl.
    split; do 2 f_equal; rewrite HZ; ring.
Qed.

Lemma digits_pretty (x : N) : JS.digits None (pretty x) = Some (Z.of_N x).
Proof.
  unfold pretty, pretty_N.
  destruct (decide (x = 0)%N) as [Hz|Hnz].
  - by rewrite Hz.
  - destruct (digits_pretty_N_go x) as [p Hp]; [by apply N.neq_0_lt_0|].
    by destruct (Hp 0%Z "") as [_ ->].
Qed.

(** Integers of at most 53 bits, and [2^53] itself, are doubles. *)
Lemma round_to_double_small (a : Z) :
  (0 ≤ a ≤ 2 ^ 53)%Z → JS.round_to_double a = a.
Proof.
  intros [Hlo Hhi]. destruct (decide (a = 2 ^ 53)%Z) as [->|Hne]; [done|].
  unfold JS.round_to_double.
  assert (Z.log2 a < 53)%Z as Hlog.
  { destruct (decide (a = 0)%Z) as [->|Hnz]; [done|].
    apply Z.log2_lt_pow2; lia. }
  destruct (Z.leb_spec (Z.log2 a - 52) 0); [done|lia].
Qed.

Lemma of_integer_exact (z : Z) :
  (Z.abs z ≤ 2 ^ 53)%Z → JS.of_integer z = JS.Num z.
Proof.
  intros Hz. unfold JS.of_integer.
  rewrite round_to_double_small by (split; [apply Z.abs_nonneg|done]).
  assert (2 ^ 53 < 2 ^ 1024)%Z as Hpow by (by apply Z.pow_lt_mono_r).
  destruct (Z.leb_spec (2 ^ 1024) (Z.abs z)) as [Hbig|_].
  - exfalso. revert Hz Hbig Hpow.
    generalize (2 ^ 53)%Z (2 ^ 1024)%Z (Z.abs z). intros; lia.
  - by rewrite Z.mul_comm, Z.abs_sgn.
Qed.

(** On a string that starts with a digit [parseInt] reads the digits. *)
Lemma parseInt_digit_start c rest d :
  JS.digit c = Some d →
  JS.parseInt (String c rest)
  = match JS.digits None (String c rest) with
    | Some v => JS.of_integer v
    | None => JS.NaN
    end.
Proof.
  intros Hd. unfold JS.parseInt.
  destruct c as [[] [] [] [] [] [] [] []]; try discriminate Hd; simpl;
    by destruct (JS.digits _ rest) as [[]|].
Qed.

Lemma parseInt_pretty (x : N) :
  JS.parseInt (pretty x) = JS.of_integer (Z.of_N x).
Proof.
  destruct (pretty_N_shape x) as (d & rest & Heq & Hd & _).
  pose proof (digits_pretty x) as Hdigits. rewrite Heq in *.
  rewrite (parseInt_digit_start _ _ _ (digit_pretty_N_char d Hd)).
  by rewrite Hdigits.
Qed.

Lemma parseInt_not_numeric c rest :
  not_numeric_start c → JS.parseInt (String c rest) = JS.NaN.
Proof.
  intros (Hw & Hminus & Hplus & Hd). unfold JS.parseInt. simpl. rewrite Hw.
  destruct c as [[] [] [] [] [] [] [] []]; try discriminate Hd; try done.
Qed.

End screen_more.

(** X8.  Explicit sizes written in decimal are read back as the Number
    values of the integers they write: for every two natural numbers, a
    mapping that binds [MIDlet-Screen-Width] and [MIDlet-Screen-Height] to
    their decimal numerals gives the doubles nearest to them; those are the
    numbers themselves up to [2^53], zero included, and beyond that the
    size returned can differ from the size written. *)
Theorem parseScreenSize_decimal (m : gmap string string) (w h : N) :
  m !! "MIDlet-Screen-Width" = Some (pretty w) →
  m !! "MIDlet-Screen-Height" = Some (pretty h) →
  parseScreenSize m
  = {| width := JS.of_integer (Z.of_N w);
       height := JS.of_integer (Z.of_N h) |} ∧
  ((Z.of_N w ≤ 2 ^ 53)%Z → width (parseScreenSize m) = JS.Num (Z.of_N w)) ∧
  ((Z.of_N h ≤ 2 ^ 53)%Z → height (parseScreenSize m) = JS.Num (Z.of_N h)).
Proof.
  intros Hw Hh.
  assert (parseScreenSize m
          = {| width := JS.of_integer (Z.of_N w);
               height := JS.of_integer (Z.of_N h) |}) as ->.
  { unfold parseScreenSize. rewrite Hw, Hh.
    assert (∀ x : N, JS.truthy (Some (pretty x)) = true) as Htruthy.
    { intros x. apply truthy_Some.
      by destruct (pretty_N_shape x) as (? & ? & -> & _). }
    rewrite !Htruthy. simpl. by rewrite !parseInt_pretty. }
  split; [done|].
  split; intros Hle; cbn [width height]; apply of_integer_exact;
    by rewrite Z.abs_eq by apply N2Z.is_nonneg.
Qed.

(** A width above [2^53] that is no double, and a height of 0. *)
Lemma parseScreenSize_decimal_witness :
  parseScreenSize
    (parseManifest ("MIDlet-Screen-Width: 9007199254740993" +:+ LF +:+
                    "MIDlet-Screen-Height: 0"))
  = {| width := JS.Num 9007199254740992; height := JS.Num 0 |}.
Proof.
  refine (eq_trans (proj1 (parseScreenSize_decimal _ 9007199254740993 0 _ _)) _);
    vm_compute; reflexivity.
Defined.

(** X9.  An explicit size that is no number is not replaced by the default:
    when [MIDlet-Screen-Width] (or [-Height]) is bound to a text whose first
    character is neither a digit, a sign nor white space, the width (or
    height) returned is [NaN]. *)
Theorem parseScreenSize_not_a_number (m : gmap string string) (c : ascii)
    (rest : string) :
  not_numeric_start c →
  (m !! "MIDlet-Screen-Width" = Some (String c rest) →
   width (parseScreenSize m) = JS.NaN) ∧
  (m !! "MIDlet-Screen-Height" = Some (String c rest) →
   height (parseScreenSize m) = JS.NaN).
Proof.
  intros Hc. split; intros Hv; unfold parseScreenSize; rewrite Hv; simpl;
    by apply parseInt_not_numeric.
Qed.

Lemma parseScreenSize_not_a_number_witness :
  width (parseScreenSize (parseManifest "MIDlet-Screen-Width: wide")) = JS.NaN.
Proof.
  refine (proj1 (parseScreenSize_not_a_number _ "w" "ide" _) _).
  - repeat split; discriminate.
  - vm_compute. reflexivity.
Defined.

(** X10.  A combined field without the separator [x] gives a width only:
    with no explicit fields and [Nokia-MIDlet-Canvas-Size] bound to a
    non-empty text that holds no lower-case [x], the width is what
    [parseInt] reads from the whole text and the height is the default
    320. *)
Theorem parseScreenSize_canvas_without_x (m : gmap string string) (v : string) :
  m !! "MIDlet-Screen-Width" = None →
  m !! "MIDlet-Screen-Height" = None →
  m !! "Nokia-MIDlet-Canvas-Size" = Some v →
  v ≠ "" → JS.indexOf "x" v = None →
  parseScreenSize m = {| width := JS.parseInt v; height := JS.Num 320 |}.
Proof.
  intros Hw Hh Hc Hv Hx. unfold parseScreenSize. rewrite Hw, Hh, Hc. simpl.
  rewrite split_one by done. simpl.
  by destruct (String.eqb_spec v "").
Qed.

Lemma parseScreenSize_canvas_without_x_witness :
  parseScreenSize (parseManifest "Nokia-MIDlet-Canvas-Size: 128X160")
  = {| width := JS.Num 128; height := JS.Num 320 |}.
Proof.
  refine (eq_trans (parseScreenSize_canvas_without_x _ "128X160" _ _ _ _ _) _).
  - vm_compute. reflexivity.
  - vm_compute. reflexivity.
  - vm_compute. reflexivity.
  - discriminate.
  - vm_compute. reflexivity.
  - vm_compute. reflexivity.
Defined.

(** ** [parseJAR] and [parseJAD] side by side *)

(** X11.  A JAR and a JAD with the same manifest text parse alike: when the
    archive loads and its manifest entry reads as [content], [parseJAR]
    returns the manifest [parseJAD content] returns, field by field, except
    for the name used when [MIDlet-Name] is missing or empty -- the file
    name without its first [.jar] for the JAR, [Unknown] for the JAD. *)
Theorem parseJAR_agrees_with_parseJAD (file : File)
    (contents : gmap string ZipObject) (obj : ZipObject) (content : string) :
  loadAsync file = inr contents →
  contents !! "META-INF/MANIFEST.MF" = Some obj →
  dir obj = false → text obj = inr content →
  ∃ r, parseJAR file = inr r ∧
       midletVersion r = midletVersion (parseJAD content) ∧
       midletVendor r = midletVendor (parseJAD content) ∧
       midlets r = midlets (parseJAD content) ∧
       screenWidth r = screenWidth (parseJAD content) ∧
       screenHeight r = screenHeight (parseJAD content) ∧
       className r = className (parseJAD content) ∧
       rawManifest r = rawManifest (parseJAD content) ∧
       (JS.truthy (parseManifest content !! "MIDlet-Name") = true →
        r = parseJAD content) ∧
       (JS.truthy (parseManifest content !! "MIDlet-Name") = false →
        midletName r = JS.replace ".jar" "" (file_name file) ∧
        midletName (parseJAD content) = "Unknown").
Proof.
  intros Hload Hobj Hdir Htext. unfold parseJAR, zip_file.
  rewrite Hload, Hobj, Hdir, Htext. eexists. split; [reflexivity|].
  simpl. repeat (split; [reflexivity|]). unfold parseJAD. split.
  - intros Ht. f_equal.
    destruct (parseManifest content !! "MIDlet-Name") as [v|]; [|done].
    simpl in *. by rewrite Ht.
  - intros Ht. simpl.
    destruct (parseManifest content !! "MIDlet-Name") as [v|]; [|done].
    simpl in *. by rewrite Ht.
Qed.

Lemma parseJAR_agrees_with_parseJAD_witness :
  ∃ r,
    parseJAR {| file_name := "snake.jar.old.jar";
                loadAsync := inr {[ "META-INF/MANIFEST.MF" :=
                  {| dir := false; text := inr "MIDlet-1: Snake,,game.Snake" |} ]} |}
    = inr r ∧
    midletName r = "snake.old.jar" ∧ className r = "game.Snake".
Proof.
  edestruct (parseJAR_agrees_with_parseJAD
               {| file_name := "snake.jar.old.jar";
                  loadAsync := inr {[ "META-INF/MANIFEST.MF" :=
                    {| dir := false;
                       text := inr "MIDlet-1: Snake,,game.Snake" |} ]} |})
    as (r & Hr & _ & _ & _ & _ & _ & Hclass & _ & _ & Hname);
    [reflexivity | reflexivity | reflexivity | reflexivity |].
  exists r. split; [exact Hr|]. split.
  - destruct Hname as [-> _]; vm_compute; reflexivity.
  - rewrite Hclass. vm_compute. reflexivity.
Defined.

(** ** [extractIcon], [handleFile], the emulator's size and the key table *)

Section icon_more.
Implicit Types (s t stem ext : string) (c a : ascii).

Lemma last_cons_first a (p : string) (ps : list string) :
  ps ≠ [] → last (JS.cons_first a (p :: ps)) = last (p :: ps).
Proof. by destruct ps. Qed.

(** A string that holds the separator splits in two pieces at least. *)
Lemma split_two c s :
  JS.indexOf c s ≠ None → ∃ p ps, JS.split c s = p :: ps ∧ ps ≠ [].
Proof.
  induction s as [|a s IH]; [done|]. simpl.
  destruct (Ascii.eqb a c).
  - intros _. exists "", (JS.split c s). split; [done | apply split_nonempty].
  - destruct (JS.indexOf c s); [|done]. intros _.
    destruct IH as (p & ps & -> & Hps); [done|]. by exists (String a p), ps.
Qed.

(** The last piece is what follows the last separator. *)
Lemma split_last c stem ext :
  JS.indexOf c ext = None →
  last (JS.split c (stem +:+ String c ext)) = Some ext.
Proof.
  intros Hext.
  assert (∃ p ps, JS.split c (stem +:+ String c ext) = p :: ps ∧ ps ≠ [] ∧
                  last ps = Some ext) as (p & ps & -> & Hps & Hlast).
  { induction stem as [|a stem (p & ps & IH & Hps & Hlast)].
    - rewrite str_app_nil_l. simpl. rewrite Ascii.eqb_refl, split_one by done.
      by exists "", [ext].
    - rewrite str_app_cons. simpl. rewrite IH. destruct (Ascii.eqb a c).
      + exists "", (p :: ps). split; [done|]. split; [done|]. by destruct ps.
      + by exists (String a p), ps. }
  by destruct ps.
Qed.

Lemma strip_slash_other s : JS.startsWith "/" s = false → JSText.strip_slash s = s.
Proof.
  destruct s as [|c s]; [done|]. simpl. intros Hc.
  destruct c as [[] [] [] [] [] [] [] []]; try done.
Qed.

Lemma length_app s t :
  String.length (s +:+ t) = String.length s + String.length t.
Proof.
  induction s as [|a s IH]; [done|]. rewrite str_app_cons. simpl. by rewrite IH.
Qed.

Lemma drop_app s t : JS.drop (String.length s) (s +:+ t) = t.
Proof. induction s as [|a s IH]; [done|]. by rewrite str_app_cons. Qed.

Lemma toLowerCase_app s t :
  JSText.toLowerCase (s +:+ t) = JSText.toLowerCase s +:+ JSText.toLowerCase t.
Proof.
  induction s as [|a s IH]; [done|]. rewrite str_app_cons. simpl.
  by rewrite IH.
Qed.

Lemma length_toLowerCase s :
  String.length (JSText.toLowerCase s) = String.length s.
Proof. induction s as [|a s IH]; [done|]. simpl. by rewrite IH. Qed.

Lemma endsWith_app s t : JSText.endsWith t (s +:+ t) = true.
Proof.
  unfold JSText.endsWith. rewrite length_app.
  replace (String.length s + String.length t - String.length t)
    with (String.length s) by lia.
  rewrite drop_app, String.eqb_refl, andb_true_r. apply Nat.leb_le. lia.
Qed.

End icon_more.

(** X12.  The data URI of an icon: when the archive loads, holds a file at
    the icon path and that file reads, [extractIcon] returns
    [data:<type>;base64,<data>], where the type is [image/gif] exactly when
    the text after the last dot of the path is [gif] in any letter case,
    and [image/png] otherwise -- also for a path that ends in a dot. *)
Theorem extractIcon_data_uri (async_base64 : ZipObject → Thrown + string)
    (file : File) (contents : gmap string ZipObject) (obj : ZipObject)
    (data stem ext : string) :
  loadAsync file = inr contents →
  contents !! JSText.strip_slash (stem +:+ "." +:+ ext) = Some obj →
  dir obj = false → async_base64 obj = inr data →
  JS.indexOf "." ext = None →
  extractIcon async_base64 file (stem +:+ "." +:+ ext)
  = Some (if decide (JSText.toLowerCase ext = "gif")
          then "data:image/gif;base64," +:+ data
          else "data:image/png;base64," +:+ data).
Proof.
  intros Hload Hobj Hdir Hdata Hext. unfold extractIcon, zip_file.
  rewrite Hload, Hobj, Hdir, Hdata. f_equal. unfold icon_mime.
  change ("." +:+ ext) with (String "." ext). rewrite split_last by done.
  simpl. destruct (String.eqb_spec (JSText.toLowerCase ext) "") as [->|Hne].
  - by simpl.
  - simpl. case_decide as Hgif.
    + by rewrite Hgif.
    + by destruct (String.eqb_spec (JSText.toLowerCase ext) "gif").
Qed.

Lemma extractIcon_data_uri_witness :
  extractIcon (λ _, inr "R0lGODlh")
    {| file_name := "snake.jar";
       loadAsync := inr {[ "icons/snake.v2.GIF" :=
         {| dir := false; text := inr "" |} ]} |}
    "/icons/snake.v2.GIF"
  = Some "data:image/gif;base64,R0lGODlh".
Proof.
  refine (eq_trans
            (extractIcon_data_uri (λ _, inr "R0lGODlh") _
               {[ "icons/snake.v2.GIF" := {| dir := false; text := inr "" |} ]}
               {| dir := false; text := inr "" |}
               "R0lGODlh" "/icons/snake.v2" "GIF" _ _ _ _ _) _);
    reflexivity.
Defined.

(** X13.  One leading slash of the icon path is ignored: for a path that
    does not itself start with a slash and holds a dot, [extractIcon] gives
    the same result with and without a slash in front. *)
Theorem extractIcon_leading_slash (async_base64 : ZipObject → Thrown + string)
    (file : File) (path : string) :
  JS.startsWith "/" path = false →
  JS.indexOf "." path ≠ None →
  extractIcon async_base64 file (String "/" path)
  = extractIcon async_base64 file path.
Proof.
  intros Hslash Hdot. unfold extractIcon.
  change (JSText.strip_slash (String "/" path)) with path.
  rewrite (strip_slash_other path Hslash).
  assert (icon_mime (String "/" path) = icon_mime path) as ->; [|done].
  unfold icon_mime. simpl JS.split.
  destruct (split_two "." path Hdot) as (p & ps & -> & Hps).
  by rewrite last_cons_first.
Qed.

Lemma extractIcon_leading_slash_witness :
  extractIcon (λ _, inr "iVBORw0K")
    {| file_name := "snake.jar";
       loadAsync := inr {[ "icon.png" := {| dir := false; text := inr "" |} ]} |}
    "/icon.png"
  = extractIcon (λ _, inr "iVBORw0K")
      {| file_name := "snake.jar";
         loadAsync := inr {[ "icon.png" := {| dir := false; text := inr "" |} ]} |}
      "icon.png".
Proof.
  apply (extractIcon_leading_slash (λ _, inr "iVBORw0K") _ "icon.png").
  - reflexivity.
  - discriminate.
Defined.

(** X14.  The loader accepts a file by the last four characters of its name,
    [.jar] in any letter case, and then shows what the parser says: the
    manifest goes to [onJarLoaded]; an archive without
    [META-INF/MANIFEST.MF] shows [Invalid JAR: MANIFEST.MF not found]; any
    other rejection shows its message, or [Failed to parse JAR file] when
    it is no [Error]. *)
Theorem handleFile_jar_suffix (file : File) (base ext : string) :
  file_name file = base +:+ ext →
  JSText.toLowerCase ext = ".jar" →
  (∀ r, parseJAR file = inr r → handleFile file = JarLoaded file r) ∧
  (∀ contents,
     loadAsync file = inr contents →
     contents !! "META-INF/MANIFEST.MF" = None →
     handleFile file = ShowError "Invalid JAR: MANIFEST.MF not found") ∧
  (∀ err, parseJAR file = inl err →
     handleFile file
     = ShowError (Hook.message_of err "Failed to parse JAR file")).
Proof.
  intros Hname Hext.
  assert (JSText.endsWith ".jar" (JSText.toLowerCase (file_name file)) = true)
    as Hends.
  { rewrite Hname, toLowerCase_app, Hext. apply endsWith_app. }
  unfold handleFile. rewrite Hends. simpl. split; [|split].
  - by intros r ->.
  - intros contents Hload Hnone. unfold parseJAR, zip_file.
    by rewrite Hload, Hnone.
  - by intros err ->.
Qed.

Lemma handleFile_jar_suffix_witness :
  handleFile {| file_name := "Snake.JAR";
                loadAsync := inr {[ "Main.class" :=
                  {| dir := false; text := inr "" |} ]} |}
  = ShowError "Invalid JAR: MANIFEST.MF not found".
Proof.
  refine (proj1 (proj2 (handleFile_jar_suffix _ "Snake" ".JAR" _ _))
            {[ "Main.class" := {| dir := false; text := inr "" |} ]} _ _).
  - reflexivity.
  - reflexivity.
  - reflexivity.
  - vm_compute. reflexivity.
Defined.

(** X15.  The emulator never asks for a display of size [NaN] or zero: the
    width and height it passes on are the manifest's when those are
    non-zero numbers (an infinity, which a numeral beyond the range of the
    doubles parses to, is passed on as it is), and 240 and 320 otherwise --
    without a manifest, for a size that did not parse as a number, and for
    a declared size of 0. *)
Theorem emulator_size_never_falsy (manifest : option JARManifest) :
  (((∃ w, w ≠ 0%Z ∧ emulator_screenWidth manifest = JS.Num w) ∨
    (∃ s, emulator_screenWidth manifest = JS.Infinity s)) ∧
   ((∃ h, h ≠ 0%Z ∧ emulator_screenHeight manifest = JS.Num h) ∨
    (∃ s, emulator_screenHeight manifest = JS.Infinity s))) ∧
  (∀ m, manifest = Some m →
        emulator_screenWidth manifest
        = match screenWidth m with
          | JS.Num w => if decide (w = 0%Z) then JS.Num 240 else JS.Num w
          | JS.NaN => JS.Num 240
          | JS.Infinity s => JS.Infinity s
          end ∧
        emulator_screenHeight manifest
        = match screenHeight m with
          | JS.Num h => if decide (h = 0%Z) then JS.Num 320 else JS.Num h
          | JS.NaN => JS.Num 320
          | JS.Infinity s => JS.Infinity s
          end).
Proof.
  assert (∀ n d, JSText.number_or n (JS.Num d)
                 = match n with
                   | JS.Num w => if decide (w = 0%Z) then JS.Num d else JS.Num w
                   | JS.NaN => JS.Num d
                   | JS.Infinity s => JS.Infinity s
                   end) as Hor.
  { intros [|w|s] d; [done| |done]. unfold JSText.number_or. simpl.
    destruct (Z.eqb_spec w 0); by case_decide. }
  assert (∀ n d, d ≠ 0%Z →
            (∃ w, w ≠ 0%Z ∧ JSText.number_or n (JS.Num d) = JS.Num w) ∨
            (∃ s, JSText.number_or n (JS.Num d) = JS.Infinity s)) as Hcases.
  { intros n d Hd. rewrite Hor. destruct n as [|w|s]; [by left; exists d| |by right; exists s].
    left. case_decide; [by exists d|by exists w]. }
  split.
  - destruct manifest as [m|]; simpl.
    + split; by apply Hcases.
    + split; left; [by exists 240%Z|by exists 320%Z].
  - intros m ->. simpl. by rewrite !Hor.
Qed.

(** X16.  The key table: the top-row key and the numeric-pad key of a digit
    both give the character code of that digit; every code the table gives
    is a directional, fire or soft key ([-7 .. -1]) or a digit
    ([48 .. 57]), so no physical key gives star or hash; and the code
    [Space], which the space bar reports, has no entry (the table's entry is
    under the one-character key [" "]). *)
Theorem keyboard_mapping_table :
  (∀ d : nat, d < 10 →
     Keys.KEYBOARD_MAPPING !! ("Digit" +:+ pretty d) = Some (48 + Z.of_nat d)%Z ∧
     Keys.KEYBOARD_MAPPING !! ("Numpad" +:+ pretty d) = Some (48 + Z.of_nat d)%Z) ∧
  (∀ code k, Keys.KEYBOARD_MAPPING !! code = Some k →
     (-7 ≤ k ≤ -1)%Z ∨ (48 ≤ k ≤ 57)%Z) ∧
  (∀ code, Keys.KEYBOARD_MAPPING !! code ≠ Some Keys.KEY_STAR ∧
           Keys.KEYBOARD_MAPPING !! code ≠ Some Keys.KEY_HASH) ∧
  Keys.KEYBOARD_MAPPING !! "Space" = None ∧
  Keys.KEYBOARD_MAPPING !! " " = Some Keys.FIRE.
Proof.
  assert (∀ code k, Keys.KEYBOARD_MAPPING !! code = Some k →
            (-7 ≤ k ≤ -1)%Z ∨ (48 ≤ k ≤ 57)%Z) as Hrange.
  { intros code k Hk%elem_of_list_to_map_2.
    repeat (apply elem_of_cons in Hk as [[= -> ->]|Hk];
            [vm_compute; intuition discriminate|]).
    by apply elem_of_nil in Hk. }
  split; [|split; [|split; [|split]]].
  - intros d Hd.
    do 10 (destruct d as [|d]; [split; vm_compute; reflexivity|]). lia.
  - exact Hrange.
  - intros code. split; intros Hk; apply Hrange in Hk;
      unfold Keys.KEY_STAR, Keys.KEY_HASH in Hk; lia.
  - vm_compute. reflexivity.
  - vm_compute. reflexivity.
Qed.

(** ** The hook: what its states and histories never show *)

Section hook_more.
Import Hook.
Implicit Types (w : World) (c : Render) (op : Op).
Local Arguments JS.truthy : simpl never.

Ltac init_cases c so io w :=
  unfold initialize, initialize_catch, loadScript;
  let Hp := fresh "Hp" in
  destruct (r_isReady c), (cheerpjInit_present w) eqn:Hp, so as [[|]| |], io;
  repeat (simpl; rewrite ?Hp).

Ltac try_cases lo w :=
  unfold loadJAR_try, run_main, loadJAR_catch, revoke_current, createObjectURL;
  let Ht := fresh "Ht" in
  let Hc := fresh "Hc" in
  destruct (JS.truthy (jarUrlRef w)) eqn:Ht,
    (containerRef w) as [?parent|] eqn:Hc,
    lo as [[?err|?display] [[]|?err'|]];
  repeat (simpl; rewrite ?Ht, ?Hc).

(** What [initialize] changes: only the status, the error, the ready flag,
    the entry point and the history, and the history by script loads and
    setup calls alone. *)
Lemma initialize_changes c so io w :
  (isReady w = true → isReady (initialize c so io w).2 = true) ∧
  (cheerpjInit_present w = true →
   cheerpjInit_present (initialize c so io w).2 = true) ∧
  (status w ≠ Paused → status (initialize c so io w).2 ≠ Paused) ∧
  ∃ new,
    trace (initialize c so io w).2 = trace w ++ new ∧
    Forall (λ e, is_init_call e || is_script_load e = true) new ∧
    (isReady (initialize c so io w).2 = true →
     isReady w = true ∨
     (cheerpjInit_present (initialize c so io w).2 = true ∧
      Exists (λ e, is_init_call e = true) new)).
Proof.
  init_cases c so io w;
    (split; [done|]); (split; [done|]); (split; [done|]);
    (eexists; split;
       [rewrite <- ?app_assoc; try reflexivity; symmetry; apply app_nil_r|]);
    (split; [repeat constructor|]);
    intros Hr; first [by left | by right; split; [done|]; repeat constructor].
Qed.

(** What the run of [loadJAR] changes and what it leaves alone. *)
Lemma loadJAR_try_changes lo b cls sw sh w :
  isReady (loadJAR_try lo b cls sw sh w).2 = isReady w ∧
  cheerpjInit_present (loadJAR_try lo b cls sw sh w).2 = cheerpjInit_present w ∧
  (status (loadJAR_try lo b cls sw sh w).2 = Running ∨
   status (loadJAR_try lo b cls sw sh w).2 = Error) ∧
  ∃ new, trace (loadJAR_try lo b cls sw sh w).2 = trace w ++ new.
Proof.
  try_cases lo w; (split; [done|]); (split; [done|]);
    (split; [by (left + right)|]);
    eexists; rewrite <- ?app_assoc; reflexivity.
Qed.

(** Every operation keeps the ready flag and the entry point once they are
    there, never sets the status [paused], and only adds to the history. *)
Lemma run_op_changes w op :
  (isReady w = true → isReady (run_op w op) = true) ∧
  (cheerpjInit_present w = true → cheerpjInit_present (run_op w op) = true) ∧
  (status w ≠ Paused → status (run_op w op) ≠ Paused) ∧
  ∃ new, trace (run_op w op) = trace w ++ new.
Proof.
  destruct op as [c so io|c so io lo b cls sw sh| |c k p|container|]; simpl.
  - destruct (initialize_changes c so io w) as (? & ? & ? & new & ? & _).
    split; [done|]. split; [done|]. split; [done|]. by exists new.
  - unfold loadJAR.
    assert (∀ w0,
              (isReady w0 = true →
               isReady (loadJAR_try lo b cls sw sh w0).2 = true) ∧
              (cheerpjInit_present w0 = true →
               cheerpjInit_present (loadJAR_try lo b cls sw sh w0).2 = true) ∧
              status (loadJAR_try lo b cls sw sh w0).2 ≠ Paused ∧
              ∃ new, trace (loadJAR_try lo b cls sw sh w0).2 = trace w0 ++ new)
      as Htry.
    { intros w0.
      destruct (loadJAR_try_changes lo b cls sw sh w0) as (-> & -> & Hst & ?).
      repeat split; try done. by destruct Hst as [-> | ->]. }
    destruct (negb (r_isReady c)).
    + destruct (initialize_changes c so io w) as (Hr & Hp & Hs & new & Htr & _).
      destruct (initialize c so io w) as [[[|]|err|] w1]; cbn [fst snd] in *;
        try (split; [done|]; split; [done|]; split; [done|]; by exists new).
      destruct (Htry w1) as (Hr1 & Hp1 & Hs1 & new1 & Htr1).
      split; [auto|]. split; [auto|]. split; [auto|].
      exists (new ++ new1). by rewrite Htr1, Htr, app_assoc.
    + destruct (Htry w) as (? & ? & ? & ?). done.
  - unfold stop. destruct (JS.truthy (jarUrlRef w)); simpl;
      repeat split; try done;
      first [by eexists | by exists []; rewrite app_nil_r].
  - unfold sendKeyEvent.
    destruct (bool_decide _), (r_displayElement c); simpl;
      repeat split; try done; first [by eexists | by exists []; rewrite app_nil_r].
  - repeat split; try done. exists []. by rewrite app_nil_r.
  - unfold cleanup, revoke_current. destruct (JS.truthy (jarUrlRef w)); simpl;
      repeat split; try done; first [by eexists | by exists []; rewrite app_nil_r].
Qed.

Lemma reachable_step w op : reachable w → reachable (run_op w op).
Proof.
  intros (present & container & ops & ->).
  exists present, container, (ops ++ [op]). unfold run_ops. by rewrite foldl_snoc.
Qed.

Lemma reachable_ind (P : World → Prop) :
  (∀ present container, P (init_world present container)) →
  (∀ w op, reachable w → P w → P (run_op w op)) →
  ∀ w, reachable w → P w.
Proof.
  intros Hinit Hstep w (present & container & ops & ->).
  induction ops as [|op ops IH] using rev_ind; [apply Hinit|].
  unfold run_ops. rewrite foldl_snoc. apply Hstep; [|exact IH].
  by exists present, container, ops.
Qed.

(** The ready flag is set by a setup call that succeeded, in a page that
    has the entry point. *)
Lemma ready_inv w :
  reachable w → isReady w = true →
  cheerpjInit_present w = true ∧ Exists (λ e, is_init_call e = true) (trace w).
Proof.
  intros Hw. induction Hw as [present container|w op Hw IH] using reachable_ind;
    [done|].
  assert (∀ w1 new, trace w1 = trace w ++ new →
            (cheerpjInit_present w = true → cheerpjInit_present w1 = true) →
            isReady w1 = isReady w ∨ isReady w = true →
            isReady w1 = true →
            cheerpjInit_present w1 = true ∧
            Exists (λ e, is_init_call e = true) (trace w1)) as Hframe.
  { intros w1 new Htr Hp Hsame Hr1.
    assert (isReady w = true) as Hr by (destruct Hsame; congruence).
    destruct (IH Hr) as [Hpw Hex]. split; [auto|].
    rewrite Htr. apply Exists_app. by left. }
  assert (∀ c so io,
            isReady (initialize c so io w).2 = true →
            cheerpjInit_present (initialize c so io w).2 = true ∧
            Exists (λ e, is_init_call e = true) (trace (initialize c so io w).2))
    as Hinit.
  { intros c so io Hr1.
    destruct (initialize_changes c so io w) as (_ & Hp & _ & new & Htr & _ & Hcase).
    destruct (Hcase Hr1) as [Hr|[Hp1 Hex]].
    - by apply (Hframe _ new); [| |right|].
    - split; [done|]. rewrite Htr. apply Exists_app. by right. }
  destruct op as [c so io|c so io lo b cls sw sh| |c k p|container|]; simpl.
  - apply Hinit.
  - unfold loadJAR.
    assert (∀ w0, (isReady w0 = true →
                   cheerpjInit_present w0 = true ∧
                   Exists (λ e, is_init_call e = true) (trace w0)) →
                  isReady (loadJAR_try lo b cls sw sh w0).2 = true →
                  cheerpjInit_present (loadJAR_try lo b cls sw sh w0).2 = true ∧
                  Exists (λ e, is_init_call e = true)
                    (trace (loadJAR_try lo b cls sw sh w0).2)) as Htry.
    { intros w0 H0.
      destruct (loadJAR_try_changes lo b cls sw sh w0) as (-> & -> & _ & new & ->).
      intros [? ?]%H0. split; [done|]. apply Exists_app. by left. }
    destruct (negb (r_isReady c)).
    + specialize (Hinit c so io).
      destruct (initialize c so io w) as [[[|]|err|] w1]; simpl in *; try done.
      by apply Htry.
    + by apply Htry.
  - destruct (run_op_changes w OpStop) as (_ & Hp & _ & new & Htr).
    apply (Hframe _ new); [done | done |]. left. unfold stop.
    by destruct (JS.truthy (jarUrlRef w)).
  - destruct (run_op_changes w (OpSendKeyEvent c k p)) as (_ & Hp & _ & new & Htr).
    apply (Hframe _ new); [done | done |]. left. simpl. unfold sendKeyEvent.
    by destruct (bool_decide _), (r_displayElement c).
  - intros Hr. by apply IH.
  - destruct (run_op_changes w OpCleanup) as (_ & Hp & _ & new & Htr).
    apply (Hframe _ new); [done | done |]. left. simpl.
    unfold cleanup, revoke_current. by destruct (JS.truthy (jarUrlRef w)).
Qed.

(** In an honest run the engine is asked to run a class only by a hook that
    is ready. *)
Lemma honest_run_main w ops :
  (Exists (λ e, is_run_main e = true) (trace w) → isReady w = true) →
  honest_run w ops →
  Exists (λ e, is_run_main e = true) (trace (run_ops w ops)) →
  isReady (run_ops w ops) = true.
Proof.
  revert w. induction ops as [|op ops IH]; intros w Hw Hhonest; [done|].
  destruct Hhonest as [Hclaim Hrest]. simpl. apply IH; [|done]. clear IH Hrest.
  destruct (run_op_changes w op) as (Hmono & _ & _ & _).
  assert (∀ w1 new, trace w1 = trace w ++ new →
            Forall (λ e, is_run_main e = false) new →
            (isReady w = true → isReady w1 = true) →
            Exists (λ e, is_run_main e = true) (trace w1) → isReady w1 = true)
    as Hquiet.
  { intros w1 new -> Hnew Hm [Hex|Hex]%Exists_app; [auto|].
    apply Exists_exists in Hex as (e & He & Hrun).
    rewrite Forall_forall in Hnew. apply Hnew in He. congruence. }
  assert (∀ c so io,
            Exists (λ e, is_run_main e = true) (trace (initialize c so io w).2) →
            isReady (initialize c so io w).2 = true) as Hinit.
  { intros c so io.
    destruct (initialize_changes c so io w) as (Hm & _ & _ & new & Htr & Hnew & _).
    apply (Hquiet _ new); [done | | done].
    eapply Forall_impl; [exact Hnew|]. by intros []. }
  destruct op as [c so io|c so io lo b cls sw sh| |c k p|container|];
    cbn [run_op claims_ready] in *.
  - apply Hinit.
  - unfold loadJAR. destruct (r_isReady c) eqn:Hc; cbn [negb].
    + intros _. destruct (loadJAR_try_changes lo b cls sw sh w) as (-> & _).
      by apply Hclaim.
    + specialize (Hinit c so io).
      pose proof (initialize_success c so io w) as Hok.
      destruct (initialize c so io w) as [[[|]|err|] w1]; cbn [fst snd] in *;
        try done.
      intros _. destruct (loadJAR_try_changes lo b cls sw sh w1) as (-> & _).
      by destruct (Hok w1 Hc eq_refl) as (_ & ? & _).
  - unfold stop in *. destruct (JS.truthy (jarUrlRef w)).
    + apply (Hquiet _ [RevokeObjectURL (default "" (jarUrlRef w))]);
        [done | by repeat constructor | done].
    + apply (Hquiet _ []); [by rewrite app_nil_r | done | done].
  - unfold sendKeyEvent in *.
    destruct (bool_decide _), (r_displayElement c) as [d|]; try done.
    apply (Hquiet _ [DispatchEvent d (if p then "keydown" else "keyup") (JS.ToUint32 k)]);
      [done | by repeat constructor | done].
  - apply (Hquiet _ []); [by rewrite app_nil_r | done | done].
  - unfold cleanup, revoke_current in *.
    destruct (JS.truthy (jarUrlRef w)); [|done].
    apply (Hquiet _ [RevokeObjectURL (default "" (jarUrlRef w))]);
      [done | by repeat constructor | done].
Qed.

(** The run of [loadJAR] with nothing in between is the part before the
    [await] followed at once by its continuation. *)
Lemma loadJAR_try_split lo b cls sw sh w :
  loadJAR_try lo b cls sw sh w
  = match loadJAR_try_begin lo b cls sw sh w with
    | inl settled => settled
    | inr ws => loadJAR_try_settle (run_result lo) ws
    end.
Proof.
  unfold loadJAR_try, loadJAR_try_begin, loadJAR_try_settle, run_main,
    createObjectURL.
  cbn [containerRef set_jarUrlRef emit].
  destruct (containerRef _); [destruct (display_result lo)|]; reflexivity.
Qed.

(** Key events change neither the state nor the refs. *)
Lemma key_ops_frame ops w :
  Forall (λ op, is_key_op op = true) ops →
  status (run_ops w ops) = status w ∧
  error (run_ops w ops) = error w ∧
  displayElement (run_ops w ops) = displayElement w ∧
  jarUrlRef (run_ops w ops) = jarUrlRef w.
Proof.
  unfold run_ops. revert w.
  induction ops as [|op ops IH]; intros w Hops; [done|].
  inversion Hops as [|? ? Hop Hrest]; subst.
  destruct op as [| | |c k p| |]; try discriminate Hop.
  cbn [foldl run_op]. destruct (IH (sendKeyEvent c k p w) Hrest) as (-> & -> & -> & ->).
  unfold sendKeyEvent. by destruct (bool_decide _), (r_displayElement c).
Qed.

End hook_more.

(** X17.  The status [paused] is never reached: in every state the hook
    reaches by its operations, whatever the callbacks used and whatever the
    page and the engine answer, the status is one of the five others. *)
Theorem status_never_paused (w : Hook.World) :
  reachable w → Hook.status w ≠ Hook.Paused.
Proof.
  intros Hw. induction Hw as [present container|w op Hw IH] using reachable_ind;
    [done|].
  by destruct (run_op_changes w op) as (_ & _ & Hs & _); apply Hs.
Qed.

Lemma status_never_paused_witness :
  Hook.status
    (Hook.run_ops (Hook.init_world true (Some 7)) two_loads_and_stop)
  ≠ Hook.Paused.
Proof.
  apply status_never_paused.
  by exists true, (Some 7), two_loads_and_stop.
Defined.

(** X18.  The ready flag is never taken back, and it stands for a setup that
    happened: no operation clears [isReady], and in every state the hook
    reaches with [isReady] set, the page has the engine's entry point and
    the history holds a call of [cheerpjInit]. *)
Theorem ready_is_kept_and_earned :
  (∀ w op, Hook.isReady w = true → Hook.isReady (Hook.run_op w op) = true) ∧
  (∀ w, reachable w → Hook.isReady w = true →
        Hook.cheerpjInit_present w = true ∧
        Exists (λ e, Hook.is_init_call e = true) (Hook.trace w)).
Proof.
  split.
  - intros w op. by destruct (run_op_changes w op) as (Hr & _).
  - intros w Hw Hr. by apply ready_inv.
Qed.

Lemma ready_is_kept_and_earned_witness :
  Hook.cheerpjInit_present
    (Hook.run_ops (Hook.init_world false None)
       [Hook.OpInitialize (Hook.render (Hook.init_world false None))
          (Hook.ScriptLoaded true) (Hook.Fulfilled ())]) = true.
Proof.
  refine (proj1 (proj2 ready_is_kept_and_earned _ _ _)).
  - by eexists false, None, [_].
  - reflexivity.
Defined.

(** X19.  The engine is asked to run a class only after its setup: in a run
    of operations where no callback claims to be ready before the hook is
    (callbacks of the latest render or of an earlier one), a history that
    holds a call of [cheerpjRunMain] belongs to a hook that is ready, and
    holds a call of [cheerpjInit] too. *)
Theorem run_main_needs_ready (present : bool) (container : option Hook.Element)
    (ops : list Hook.Op) :
  honest_run (Hook.init_world present container) ops →
  Exists (λ e, is_run_main e = true)
    (Hook.trace (Hook.run_ops (Hook.init_world present container) ops)) →
  Hook.isReady (Hook.run_ops (Hook.init_world present container) ops) = true ∧
  Exists (λ e, Hook.is_init_call e = true)
    (Hook.trace (Hook.run_ops (Hook.init_world present container) ops)).
Proof.
  intros Hhonest Hrun.
  assert (Hook.isReady (Hook.run_ops (Hook.init_world present container) ops)
          = true) as Hready.
  { apply honest_run_main; [|done|done]. simpl. by intros ?%Exists_nil. }
  split; [done|]. apply ready_inv; [|done]. by exists present, container, ops.
Qed.

Lemma run_main_needs_ready_witness :
  Hook.isReady
    (Hook.run_ops (Hook.init_world true (Some 7)) two_loads_and_stop) = true.
Proof.
  refine (proj1 (run_main_needs_ready true (Some 7) two_loads_and_stop _ _)).
  - vm_compute. repeat split; done.
  - vm_compute. do 3 apply Exists_cons_tl. by apply Exists_cons_hd.
Defined.

(** X20.  The end of the program changes nothing in the hook.  Where
    [loadJAR] waits for [cheerpjRunMain] the status is [running], the ref
    holds the object URL of the JAR and the last call is the
    [cheerpjRunMain] of the class on [/app/<url>:lib/]; the continuation of
    a fulfilment performs no write; so, after any key events sent while the
    program ran, [loadJAR] is fulfilled in a hook that still has the status
    [running], the same URL and the same display element.  With nothing in
    between, the two parts make up the run of [loadJAR]. *)
Theorem loadJAR_fulfilled_stays_running (lo : Hook.LoadOutcome)
    (jarBlob : Hook.Blob) (className : string)
    (screenWidth screenHeight : JS.number) (w ws : Hook.World)
    (ops : list Hook.Op) :
  Hook.loadJAR_try_begin lo jarBlob className screenWidth screenHeight w
    = inr ws →
  Forall (λ op, is_key_op op = true) ops →
  (Hook.status ws = Hook.Running ∧
   ∃ url, Hook.jarUrlRef ws = Some url ∧
          last (Hook.trace ws)
          = Some (Hook.RunMain className ("/app/" +:+ url +:+ ":lib/"))) ∧
  (Hook.loadJAR_try_settle (Hook.Fulfilled ()) (Hook.run_ops ws ops)
     = (Hook.Fulfilled (), Hook.run_ops ws ops) ∧
   Hook.status (Hook.run_ops ws ops) = Hook.Running ∧
   Hook.jarUrlRef (Hook.run_ops ws ops) = Hook.jarUrlRef ws ∧
   Hook.displayElement (Hook.run_ops ws ops) = Hook.displayElement ws) ∧
  Hook.loadJAR_try lo jarBlob className screenWidth screenHeight w
    = Hook.loadJAR_try_settle (Hook.run_result lo) ws.
Proof.
  intros Hbegin Hops.
  assert (Hook.status ws = Hook.Running ∧
          ∃ url, Hook.jarUrlRef ws = Some url ∧
                 last (Hook.trace ws)
                 = Some (Hook.RunMain className ("/app/" +:+ url +:+ ":lib/")))
    as Hws.
  { revert Hbegin. unfold Hook.loadJAR_try_begin, Hook.createObjectURL.
    cbn [Hook.containerRef Hook.set_jarUrlRef Hook.emit].
    destruct (Hook.containerRef _); [destruct (Hook.display_result lo)|];
      intros [= <-]; (split; [done|]); eexists; (split; [done|]);
      cbn [Hook.trace Hook.emit Hook.setStatus Hook.setDisplayElement
           Hook.set_jarUrlRef]; by rewrite last_snoc. }
  split; [exact Hws|]. split.
  - destruct (key_ops_frame ops ws Hops) as (Hst & _ & Hd & Hu).
    split; [done|]. rewrite Hst. by destruct Hws as [-> _].
  - by rewrite loadJAR_try_split, Hbegin.
Qed.

(** A first load, and the fire key pressed and released while the program
    runs: when the program ends the status is still [running]. *)
Lemma loadJAR_fulfilled_stays_running_witness :
  Hook.status
    (Hook.run_ops suspended_run
       [ Hook.OpSendKeyEvent (Hook.render suspended_run) (-5) true;
         Hook.OpSendKeyEvent (Hook.render suspended_run) (-5) false ])
  = Hook.Running.
Proof.
  refine (proj1 (proj2 (proj1 (proj2 (loadJAR_fulfilled_stays_running
            {| Hook.display_result := inr 8;
               Hook.run_result := Hook.Fulfilled () |}
            "jar" "a.Main" (JS.Num 240) (JS.Num 320)
            (Hook.init_world true (Some 7)) suspended_run
            [ Hook.OpSendKeyEvent (Hook.render suspended_run) (-5) true;
              Hook.OpSendKeyEvent (Hook.render suspended_run) (-5) false ]
            _ _))))).
  - vm_compute. reflexivity.
  - by repeat constructor.
Defined.



(** X22.  A failed initialization can be retried: after a call that returned
    [false] (status [error], a message set, the hook not ready), a call that
    succeeds sets the status [idle], clears the message, makes the hook
    ready, and calls the engine's setup once in doing so. *)
Theorem initialize_retry (so so' : Hook.ScriptOutcome)
    (io io' : Hook.Settled ()) (w w1 w2 : Hook.World) :
  Hook.call_initialize so io w = (Hook.Fulfilled false, w1) →
  Hook.call_initialize so' io' w1 = (Hook.Fulfilled true, w2) →
  (Hook.status w1 = Hook.Error ∧ is_Some (Hook.error w1) ∧
   Hook.isReady w1 = false) ∧
  (Hook.status w2 = Hook.Idle ∧ Hook.error w2 = None ∧
   Hook.isReady w2 = true) ∧
  ∃ new, Hook.trace w2 = Hook.trace w1 ++ new ∧
         filter Hook.is_init_call new = [Hook.CheerpjInit 8 "none" "java"].
Proof.
  intros Hfail Hok.
  assert (Hook.isReady w1 = false) as Hr1.
  { revert Hfail. unfold Hook.call_initialize, Hook.initialize,
      Hook.initialize_catch, Hook.loadScript. simpl.
    destruct (Hook.isReady w) eqn:Hr, (Hook.cheerpjInit_present w) eqn:Hp,
      so as [[|]| |], io;
      repeat (simpl; rewrite ?Hp); intros [= <-]; done. }
  split; [|split].
  - destruct (initialize_failure _ _ _ _ _ Hfail). done.
  - apply initialize_success in Hok as (_ & ? & ? & ? & _); done.
  - apply initialize_success in Hok as (Htr & _); [|done].
    eexists. split; [exact Htr|]. by destruct (Hook.cheerpjInit_present w1).
Qed.

Lemma initialize_retry_witness :
  Hook.error
    (Hook.call_initialize (Hook.ScriptLoaded true) (Hook.Fulfilled ())
       (Hook.call_initialize Hook.ScriptFailed Hook.Pending
          (Hook.init_world false None)).2).2 = None ∧
  Hook.trace
    (Hook.call_initialize (Hook.ScriptLoaded true) (Hook.Fulfilled ())
       (Hook.call_initialize Hook.ScriptFailed Hook.Pending
          (Hook.init_world false None)).2).2
  = [ Hook.AppendScript Hook.CHEERPJ_CDN;
      Hook.AppendScript Hook.CHEERPJ_CDN;
      Hook.CheerpjInit 8 "none" "java" ].
Proof.
  split; [|vm_compute; reflexivity].
  refine (proj1 (proj2 (proj1 (proj2 (initialize_retry Hook.ScriptFailed
            (Hook.ScriptLoaded true) Hook.Pending (Hook.Fulfilled ())
            (Hook.init_world false None)
            (Hook.call_initialize Hook.ScriptFailed Hook.Pending
               (Hook.init_world false None)).2
            (Hook.call_initialize (Hook.ScriptLoaded true) (Hook.Fulfilled ())
               (Hook.call_initialize Hook.ScriptFailed Hook.Pending
                  (Hook.init_world false None)).2).2 _ _)))));
    vm_compute; reflexivity.
Defined.

(** X23.  [stop] is idempotent: a second [stop] changes nothing and makes no
    call. *)
Theorem stop_idempotent (w : Hook.World) : Hook.stop (Hook.stop w) = Hook.stop w.
Proof.
  unfold Hook.stop. destruct (JS.truthy (Hook.jarUrlRef w)) eqn:Ht; simpl.
  - reflexivity.
  - by rewrite Ht.
Qed.

(** X24.  The unmount cleanup revokes the URL but keeps it in the ref: a
    [stop] that follows it revokes the same URL a second time, while a
    cleanup that follows a [stop] finds the ref empty and makes no call. *)
Theorem cleanup_keeps_ref (w : Hook.World) (url : string) :
  Hook.jarUrlRef w = Some url → url ≠ "" →
  Hook.jarUrlRef (Hook.cleanup w) = Some url ∧
  Hook.trace (Hook.stop (Hook.cleanup w))
    = Hook.trace w ++ [Hook.RevokeObjectURL url; Hook.RevokeObjectURL url] ∧
  Hook.trace (Hook.cleanup (Hook.stop w))
    = Hook.trace w ++ [Hook.RevokeObjectURL url].
Proof.
  intros Href Hurl.
  assert (JS.truthy (Some url) = true) as Ht by by apply truthy_Some.
  unfold Hook.cleanup, Hook.stop, Hook.revoke_current. rewrite Href, Ht.
  simpl. rewrite Href, Ht. simpl. by rewrite <- app_assoc.
Qed.

Lemma cleanup_keeps_ref_witness :
  Hook.trace
    (Hook.stop (Hook.cleanup
       (Hook.set_jarUrlRef (Some "blob:0") (Hook.init_world true None))))
  = [Hook.RevokeObjectURL "blob:0"; Hook.RevokeObjectURL "blob:0"].
Proof.
  refine (proj1 (proj2 (cleanup_keeps_ref
            (Hook.set_jarUrlRef (Some "blob:0") (Hook.init_world true None))
            "blob:0" _ _))).
  - reflexivity.
  - discriminate.
Defined.

(** X25.  Keys reach the display of the last load, and [stop] cuts them off:
    after a run of [loadJAR] with a mounted container in which the engine
    created a display and did not reject the start, a key event sent through
    the callback of the next render is dispatched to that display, with the
    key code converted to [unsigned long]: a code from 0 on arrives as it is,
    and a negative code [-n], as those of the directional, fire and soft
    keys are, arrives as [2^32 - n]; after a [stop], a key event sent
    through the callback of the next render does nothing. *)
Theorem keys_follow_the_run (lo : Hook.LoadOutcome) (jarBlob : Hook.Blob)
    (className : string) (screenWidth screenHeight : JS.number)
    (w : Hook.World) (parent display : Hook.Element) (keyCode : Z)
    (pressed : bool) :
  Hook.containerRef w = Some parent →
  Hook.display_result lo = inr display →
  (∀ err, Hook.run_result lo ≠ Hook.Rejected err) →
  Hook.trace
    (Hook.sendKeyEvent
       (Hook.render
          (Hook.loadJAR_try lo jarBlob className screenWidth screenHeight w).2)
       keyCode pressed
       (Hook.loadJAR_try lo jarBlob className screenWidth screenHeight w).2)
  = Hook.trace
      (Hook.loadJAR_try lo jarBlob className screenWidth screenHeight w).2
      ++ [Hook.DispatchEvent display (if pressed then "keydown" else "keyup")
            (JS.ToUint32 keyCode)] ∧
  ((0 ≤ keyCode < 2 ^ 32)%Z → JS.ToUint32 keyCode = keyCode) ∧
  ((- 2 ^ 32 ≤ keyCode < 0)%Z →
   JS.ToUint32 keyCode = (2 ^ 32 + keyCode)%Z ∧ JS.ToUint32 keyCode ≠ keyCode) ∧
  Hook.sendKeyEvent
    (Hook.render
       (Hook.stop
          (Hook.loadJAR_try lo jarBlob className screenWidth screenHeight w).2))
    keyCode pressed
    (Hook.stop
       (Hook.loadJAR_try lo jarBlob className screenWidth screenHeight w).2)
  = Hook.stop
      (Hook.loadJAR_try lo jarBlob className screenWidth screenHeight w).2.
Proof.
  intros Hparent Hdisplay Hrun. split; [|split; [|split]].
  - apply sendKeyEvent_delivers.
    + unfold Hook.loadJAR_try, Hook.run_main, Hook.loadJAR_catch,
        Hook.createObjectURL, Hook.revoke_current.
      destruct (JS.truthy _); simpl; rewrite Hparent, Hdisplay;
        destruct (Hook.run_result lo) as [[]|err|] eqn:Hr; simpl; try done;
        by destruct (Hrun err).
    + unfold Hook.loadJAR_try, Hook.run_main, Hook.loadJAR_catch,
        Hook.createObjectURL, Hook.revoke_current.
      destruct (JS.truthy _); simpl; rewrite Hparent, Hdisplay;
        destruct (Hook.run_result lo) as [[]|err|] eqn:Hr; simpl; try done;
        by destruct (Hrun err).
  - intros Hk. unfold JS.ToUint32. by apply Z.mod_small.
  - intros Hk. unfold JS.ToUint32.
    assert ((keyCode mod 2 ^ 32 = 2 ^ 32 + keyCode)%Z) as ->.
    { symmetry. apply (Z.mod_unique _ _ (-1)); lia. }
    split; [done|lia].
  - assert (Hook.status
              (Hook.stop (Hook.loadJAR_try lo jarBlob className screenWidth
                            screenHeight w).2) = Hook.Idle) as Hidle.
    { unfold Hook.stop. by destruct (JS.truthy _). }
    unfold Hook.sendKeyEvent, Hook.render.
    cbn [Hook.r_status Hook.r_displayElement]. by rewrite Hidle.
Qed.

(** The fire key, code -5, reaches the display as 4294967291. *)
Lemma keys_follow_the_run_witness :
  Hook.trace
    (Hook.sendKeyEvent
       (Hook.render
          (Hook.loadJAR_try
             {| Hook.display_result := inr 8; Hook.run_result := Hook.Pending |}
             "jar" "a.Main" (JS.Num 240) (JS.Num 320)
             (Hook.init_world true (Some 7))).2)
       Keys.FIRE true
       (Hook.loadJAR_try
          {| Hook.display_result := inr 8; Hook.run_result := Hook.Pending |}
          "jar" "a.Main" (JS.Num 240) (JS.Num 320)
          (Hook.init_world true (Some 7))).2)
  = [ Hook.CreateObjectURL "jar" "blob:0";
      Hook.CreateDisplay (JS.Num 240) (JS.Num 320) 7;
      Hook.RunMain "a.Main" "/app/blob:0:lib/";
      Hook.DispatchEvent 8 "keydown" 4294967291 ].
Proof.
  refine (eq_trans (proj1 (keys_follow_the_run
            {| Hook.display_result := inr 8; Hook.run_result := Hook.Pending |}
            "jar" "a.Main" (JS.Num 240) (JS.Num 320)
            (Hook.init_world true (Some 7)) 7 8 Keys.FIRE true _ _ _)) _).
  - reflexivity.
  - reflexivity.
  - intros err. discriminate.
  - vm_compute. reflexivity.
Defined.

(** X26.  Without a mount point the run still starts: when the container
    ref is empty, [loadJAR] creates the object URL and calls
    [cheerpjRunMain] but never [cheerpjCreateDisplay], and the display
    element stays what it was; from a hook that had none, the status becomes
    [running] while key events are dropped. *)
Theorem loadJAR_without_container (lo : Hook.LoadOutcome) (jarBlob : Hook.Blob)
    (className : string) (screenWidth screenHeight : JS.number)
    (w : Hook.World) :
  Hook.containerRef w = None →
  Hook.displayElement
    (Hook.loadJAR_try lo jarBlob className screenWidth screenHeight w).2
  = Hook.displayElement w ∧
  (∃ new,
     Hook.trace
       (Hook.loadJAR_try lo jarBlob className screenWidth screenHeight w).2
     = Hook.trace w ++ new ∧
     Forall (λ e, is_create_display e = false) new ∧
     Exists (λ e, is_run_main e = true) new) ∧
  (Hook.displayElement w = None →
   ∀ keyCode pressed,
     Hook.sendKeyEvent
       (Hook.render
          (Hook.loadJAR_try lo jarBlob className screenWidth screenHeight w).2)
       keyCode pressed
       (Hook.loadJAR_try lo jarBlob className screenWidth screenHeight w).2
     = (Hook.loadJAR_try lo jarBlob className screenWidth screenHeight w).2).
Proof.
  intros Hnone.
  assert (Hook.displayElement
            (Hook.loadJAR_try lo jarBlob className screenWidth screenHeight w).2
          = Hook.displayElement w) as Hd.
  { unfold Hook.loadJAR_try, Hook.run_main, Hook.loadJAR_catch,
      Hook.createObjectURL, Hook.revoke_current.
    destruct (JS.truthy _); simpl; rewrite Hnone;
      by destruct (Hook.run_result lo) as [[]|err|]. }
  split; [done|]. split.
  - unfold Hook.loadJAR_try, Hook.run_main, Hook.loadJAR_catch,
      Hook.createObjectURL, Hook.revoke_current.
    destruct (JS.truthy _); simpl; rewrite Hnone;
      destruct (Hook.run_result lo) as [[]|err|]; simpl;
      (eexists; split; [rewrite <- ?app_assoc; reflexivity|]);
      (split; [by repeat constructor|]);
      repeat first [by apply Exists_cons_hd | apply Exists_cons_tl].
  - intros Hwd k p. unfold Hook.sendKeyEvent. simpl. rewrite Hd, Hwd.
    by destruct (bool_decide _).
Qed.

Lemma loadJAR_without_container_witness :
  Hook.trace
    (Hook.loadJAR_try
       {| Hook.display_result := inr 8; Hook.run_result := Hook.Pending |}
       "jar" "a.Main" (JS.Num 240) (JS.Num 320)
       (Hook.init_world true None)).2
  = [ Hook.CreateObjectURL "jar" "blob:0";
      Hook.RunMain "a.Main" "/app/blob:0:lib/" ] ∧
  Hook.displayElement
    (Hook.loadJAR_try
       {| Hook.display_result := inr 8; Hook.run_result := Hook.Pending |}
       "jar" "a.Main" (JS.Num 240) (JS.Num 320)
       (Hook.init_world true None)).2
  = None.
Proof.
  split; [reflexivity|].
  refine (eq_trans (proj1 (loadJAR_without_container
            {| Hook.display_result := inr 8; Hook.run_result := Hook.Pending |}
            "jar" "a.Main" (JS.Num 240) (JS.Num 320)
            (Hook.init_world true None) _)) _); reflexivity.
Defined.
